(** * Symbolic expressions: rendering, post-order visiting, differentiation

    A shallow embedding of [expressions/expressions.py].

    Python objects are modelled as terms that carry their identity: an
    instance of [Expression] (or of one of its subclasses) is an [object]
    holding the identity Python's [id] would report, its class, its
    [operands] tuple and, for terminals, its [value] attribute.  Two
    occurrences of an object with the same identity are the same Python
    object; sharing inside a DAG is the same identity occurring more than
    once.  Instantiating a class allocates a fresh identity, which is the
    only state the constructors thread. *)

From stdpp Require Import gmap strings list.
From Stdlib Require Import QArith DecimalString Reals Lra.

Local Close Scope R_scope.
Local Close Scope Q_scope.
Local Open Scope string_scope.
Local Open Scope list_scope.
Local Open Scope nat_scope.

(** ** Python values *)

(** Builtin numbers: the values for which [isinstance(v, numbers.Number)]
    holds.  A float is held as the rational it denotes; the program only
    stores, compares and prints floats, it never computes with them. *)
Inductive number :=
| PyInt (n : Z)
| PyFloat (x : Q)
| PyBool (b : bool).

(** Builtin values that are not instances of [Expression]. *)
Inductive scalar :=
| PyNum (n : number)
| PyStr (s : string)
| PyNone.

(** The classes of the module.  [cExpression], [cOperator] and [cTerminal]
    are the base classes, which Python lets one instantiate as well. *)
Inductive pyclass :=
| cExpression | cOperator | cTerminal
| cNumber | cSymbol
| cAdd | cSub | cMul | cDiv | cPow.

(** An instance of [Expression] or of a subclass.  [value] is [None] when
    the instance has no [value] attribute (only [Terminal.__init__] sets
    it). *)
#[local] Unset Elimination Schemes.
Inductive object := Obj {
  oid : nat;
  cls : pyclass;
  operands : list object;
  value : option scalar
}.
#[local] Set Elimination Schemes.

(** Any value a caller may pass where the code does not fix the type. *)
Inductive pyval :=
| Builtin (s : scalar)
| Instance (o : object).

Global Instance pyclass_eq_dec : EqDecision pyclass.
Proof. solve_decision. Defined.

(** ** Exceptions and the allocation monad *)

Inductive exn :=
| TypeError (msg : string)
| NotImplementedError (msg : string)
| AttributeError
| IndexError
| KeyError.

Inductive Res (A : Type) :=
| Ok (a : A)
| Raise (e : exn).
Arguments Ok {A} a.
Arguments Raise {A} e.

(** Computations over a state [S] that may raise. *)
Definition M (S A : Type) : Type := S → Res (A * S).

Definition ret {S A} (a : A) : M S A := λ s, Ok (a, s).
Definition raise {S A} (e : exn) : M S A := λ _, Raise e.
Definition bind {S A B} (k : A → M S B) (m : M S A) : M S B :=
  λ s, match m s with
       | Ok (a, s') => k a s'
       | Raise e => Raise e
       end.

(** stdpp's [x ← m; k] notation for [bind]. *)
Global Instance M_ret {S} : MRet (M S) := @ret S.
Global Instance M_bind {S} : MBind (M S) := @bind S.

(** The interpreter's allocator: the state is the next unused identity. *)
Definition alloc (c : pyclass) (ops : list object) (v : option scalar)
  : M nat object :=
  λ next, Ok (Obj next c ops v, S next).

(** Sequence indexing [xs[i]]. *)
Definition index {S A} (xs : list A) (i : nat) : M S A :=
  match xs !! i with
  | Some x => ret x
  | None => raise IndexError
  end.

(** ** Classes *)

(** Method resolution order of each class (the builtin [object] left out). *)
Definition mro (c : pyclass) : list pyclass :=
  match c with
  | cExpression => [cExpression]
  | cOperator => [cOperator; cExpression]
  | cTerminal => [cTerminal; cExpression]
  | cNumber => [cNumber; cTerminal; cExpression]
  | cSymbol => [cSymbol; cTerminal; cExpression]
  | cAdd => [cAdd; cOperator; cExpression]
  | cSub => [cSub; cOperator; cExpression]
  | cMul => [cMul; cOperator; cExpression]
  | cDiv => [cDiv; cOperator; cExpression]
  | cPow => [cPow; cOperator; cExpression]
  end.

(** Attribute lookup on a class: the first class of the MRO that defines
    the attribute in its own body. *)
Fixpoint lookup_mro {A} (own : pyclass → option A) (cs : list pyclass)
  : option A :=
  match cs with
  | [] => None
  | c :: cs' => match own c with
                | Some a => Some a
                | None => lookup_mro own cs'
                end
  end.

Definition class_attr {A} (own : pyclass → option A) (c : pyclass) : option A :=
  lookup_mro own (mro c).

(** [type(x).__name__] *)
Definition class_name (c : pyclass) : string :=
  match c with
  | cExpression => "Expression"
  | cOperator => "Operator"
  | cTerminal => "Terminal"
  | cNumber => "Number"
  | cSymbol => "Symbol"
  | cAdd => "Add"
  | cSub => "Sub"
  | cMul => "Mul"
  | cDiv => "Div"
  | cPow => "Pow"
  end.

Definition type_name (v : pyval) : string :=
  match v with
  | Builtin (PyNum (PyInt _)) => "int"
  | Builtin (PyNum (PyFloat _)) => "float"
  | Builtin (PyNum (PyBool _)) => "bool"
  | Builtin (PyStr _) => "str"
  | Builtin PyNone => "NoneType"
  | Instance o => class_name (cls o)
  end.

(** Class bodies: [precedence] and [exp_symbol]. *)
Definition own_precedence (c : pyclass) : option Z :=
  match c with
  | cTerminal => Some 0%Z
  | cAdd => Some 3%Z
  | cSub => Some 3%Z
  | cMul => Some 2%Z
  | cDiv => Some 2%Z
  | cPow => Some 1%Z
  | _ => None
  end.

Definition own_exp_symbol (c : pyclass) : option string :=
  match c with
  | cAdd => Some "+"
  | cSub => Some "-"
  | cMul => Some "*"
  | cDiv => Some "/"
  | cPow => Some "^"
  | _ => None
  end.

(** [x.precedence] and [x.exp_symbol]: class attributes reached through the
    instance; [AttributeError] when no class of the MRO defines them. *)
Definition precedence (x : object) : Res Z :=
  match class_attr own_precedence (cls x) with
  | Some p => Ok p
  | None => Raise AttributeError
  end.

Definition exp_symbol (x : object) : Res string :=
  match class_attr own_exp_symbol (cls x) with
  | Some s => Ok s
  | None => Raise AttributeError
  end.

(** [x.value] *)
Definition get_value (x : object) : Res scalar :=
  match value x with
  | Some v => Ok v
  | None => Raise AttributeError
  end.

(** ** Construction *)

(** [isinstance(v, numbers.Number)], returning the number when it holds. *)
Definition as_Num (v : pyval) : option number :=
  match v with
  | Builtin (PyNum n) => Some n
  | _ => None
  end.

(** [Expression.__init__(self, *operands)], run for a new instance of
    class [c]. *)
Definition Expression__init__ (c : pyclass) (ops : list object) : M nat object :=
  alloc c ops None.

(** [Terminal.__init__(self, value)]: sets [value], then calls
    [super().__init__()] with no operand. *)
Definition Terminal__init__ (c : pyclass) (v : scalar) : M nat object :=
  alloc c [] (Some v).

(** [Expression(...)], [Operator(...)] and [Terminal(value)]:
    the base classes instantiated directly. *)
Definition Expression (ops : list object) : M nat object :=
  Expression__init__ cExpression ops.
Definition Operator (ops : list object) : M nat object :=
  Expression__init__ cOperator ops.
Definition Terminal (v : scalar) : M nat object :=
  Terminal__init__ cTerminal v.

(** [Number(value)] *)
Definition Number (v : pyval) : M nat object :=
  match as_Num v with
  | None =>
      raise (TypeError ("Val input of type: " +:+ type_name v +:+
                        "Expected val of type " +:+ "type" +:+ "."))
  | Some n => Terminal__init__ cNumber (PyNum n)
  end.

(** [Symbol(symbol)] *)
Definition Symbol (symbol : scalar) : M nat object :=
  Terminal__init__ cSymbol symbol.

Definition Add (ops : list object) : M nat object := Expression__init__ cAdd ops.
Definition Sub (ops : list object) : M nat object := Expression__init__ cSub ops.
Definition Mul (ops : list object) : M nat object := Expression__init__ cMul ops.
Definition Div (ops : list object) : M nat object := Expression__init__ cDiv ops.
Definition Pow (ops : list object) : M nat object := Expression__init__ cPow ops.

(** *** Operator sugar

    The right-hand side of a forward operator is, by the contract of the
    module, a raw number or another expression: [inl n] is the case
    [isinstance(other, Num)], [inr e] the other one. *)
Definition promote (other : number + object) : M nat object :=
  match other with
  | inl n => Number (Builtin (PyNum n))
  | inr e => ret e
  end.

Definition __add__ (self : object) (other : number + object) : M nat object :=
  other ← promote other ; Add [self; other].

Definition __radd__ (self : object) (other : pyval) : M nat object :=
  other ← Number other ; Add [other; self].

Definition __sub__ (self : object) (other : number + object) : M nat object :=
  other ← promote other ; Sub [self; other].

Definition __rsub__ (self : object) (other : pyval) : M nat object :=
  other ← Number other ; Sub [other; self].

Definition __mul__ (self : object) (other : number + object) : M nat object :=
  other ← promote other ; Mul [self; other].

Definition __rmul__ (self : object) (other : pyval) : M nat object :=
  other ← Number other ; Mul [other; self].

Definition __truediv__ (self : object) (other : number + object) : M nat object :=
  other ← promote other ; Div [self; other].

Definition __rtruediv__ (self : object) (other : pyval) : M nat object :=
  other ← Number other ; Div [other; self].

Definition __pow__ (self : object) (other : number + object) : M nat object :=
  other ← promote other ; Pow [self; other].

Definition __rpow__ (self : object) (other : pyval) : M nat object :=
  other ← Number other ; Pow [other; self].

(** Literals. *)
Definition py_int (n : Z) : pyval := Builtin (PyNum (PyInt n)).
Definition py_float (x : Q) : pyval := Builtin (PyNum (PyFloat x)).
Definition py_str (s : string) : pyval := Builtin (PyStr s).

(** [v + e], [v - e], [v * e], [v / e] and [v ** e] for an expression [e]
    on the right.  When [v] is an instance of the module's classes, its own
    forward method takes [e].  A builtin value has no forward method that
    accepts an [Expression], and Python hands the operation to the
    reflected method of [e]. *)
Definition binary_add (v : pyval) (e : object) : M nat object :=
  match v with
  | Instance a => __add__ a (inr e)
  | Builtin _ => __radd__ e v
  end.

Definition binary_sub (v : pyval) (e : object) : M nat object :=
  match v with
  | Instance a => __sub__ a (inr e)
  | Builtin _ => __rsub__ e v
  end.

Definition binary_mul (v : pyval) (e : object) : M nat object :=
  match v with
  | Instance a => __mul__ a (inr e)
  | Builtin _ => __rmul__ e v
  end.

Definition binary_truediv (v : pyval) (e : object) : M nat object :=
  match v with
  | Instance a => __truediv__ a (inr e)
  | Builtin _ => __rtruediv__ e v
  end.

Definition binary_pow (v : pyval) (e : object) : M nat object :=
  match v with
  | Instance a => __pow__ a (inr e)
  | Builtin _ => __rpow__ e v
  end.

(** ** Rendering *)

Global Instance Res_ret : MRet Res := @Ok.
Global Instance Res_bind : MBind Res :=
  λ A B k m, match m with
             | Ok a => k a
             | Raise e => Raise e
             end.

(** A pure computation that may raise, used inside a stateful one. *)
Definition lift {S A} (r : Res A) : M S A :=
  λ s, match r with
       | Ok a => Ok (a, s)
       | Raise e => Raise e
       end.

(** What the interpreter supplies and the module does not define: the
    text of a float, and the default text of an object whose class has no
    [__str__] of its own (it shows the class and the address). *)
Class Runtime := {
  float_str : Q → string;
  object_str : pyclass → nat → string
}.

(** The classes that define [__str__] in their body. *)
Inductive str_method := Operator__str__ | Terminal__str__.

Definition own__str__ (c : pyclass) : option str_method :=
  match c with
  | cOperator => Some Operator__str__
  | cTerminal => Some Terminal__str__
  | _ => None
  end.

Section Rendering.
Context `{Runtime}.

(** [str(v)] on a builtin value. *)
Definition builtin_str (v : scalar) : string :=
  match v with
  | PyNum (PyInt n) => NilZero.string_of_int (Z.to_int n)
  | PyNum (PyFloat x) => float_str x
  | PyNum (PyBool b) => if b then "True" else "False"
  | PyStr s => s
  | PyNone => "None"
  end.

(** [a.precedence > self.precedence] and the parentheses it decides. *)
Definition parenthesize (outer inner : Z) (s : string) : string :=
  if bool_decide (inner > outer)%Z then "(" +:+ s +:+ ")" else s.

(** [str(x)]: the [__str__] found along the MRO of [type(x)].  The first
    branch is [Operator.__str__], the second [Terminal.__str__]. *)
Fixpoint str (self : object) : Res string :=
  match class_attr own__str__ (cls self) with
  | Some Operator__str__ =>
      match operands self with
      | a :: b :: _ =>
          pa ← precedence a;
          ps ← precedence self;
          sa ← str a;
          let a_str := parenthesize ps pa sa in
          pb ← precedence b;
          ps ← precedence self;
          sb ← str b;
          let b_str := parenthesize ps pb sb in
          sym ← exp_symbol self;
          mret (a_str +:+ " " +:+ sym +:+ " " +:+ b_str)
      | _ => Raise IndexError
      end
  | Some Terminal__str__ =>
      v ← get_value self;
      mret (builtin_str v)
  | None => mret (object_str (cls self) (oid self))
  end.
End Rendering.

(** ** Differentiation rules *)

(** Keyword arguments, as the dictionary [**kwargs] collects them. *)
Definition kwargs := list (string * pyval).

Fixpoint kw_get (name : string) (kw : kwargs) : option pyval :=
  match kw with
  | [] => None
  | (k, v) :: kw' => if String.eqb k name then Some v else kw_get name kw'
  end.

(** [a == b] on the modelled values: numbers compare by numeric value
    (so [1 == 1.0 == True]), strings by content, instances of the module's
    classes by identity (they define no [__eq__]), and values of unrelated
    types are unequal. *)
Definition number_Q (n : number) : Q :=
  match n with
  | PyInt z => inject_Z z
  | PyFloat x => x
  | PyBool b => if b then 1%Q else 0%Q
  end.

Definition py_eq (a b : pyval) : bool :=
  match a, b with
  | Builtin (PyNum m), Builtin (PyNum n) => Qeq_bool (number_Q m) (number_Q n)
  | Builtin (PyStr s), Builtin (PyStr t) => String.eqb s t
  | Builtin PyNone, Builtin PyNone => true
  | Instance x, Instance y => Nat.eqb (oid x) (oid y)
  | _, _ => false
  end.

(** A rule takes the node, the results for its operands and the keyword
    arguments. *)
Definition rule := object → list object → kwargs → M nat object.

Definition differentiate_Number : rule :=
  λ expr o kw, Number (py_float 0).

Definition differentiate_Symbol : rule :=
  λ expr o kw,
    match kw_get "var" kw with
    | None =>
        raise (TypeError "_() missing 1 required keyword-only argument: 'var'")
    | Some var =>
        v ← lift (get_value expr);
        if py_eq (Builtin v) var
        then Number (py_float 1)
        else Number (py_float 0)
    end.

Definition differentiate_Add : rule :=
  λ expr o kw,
    o0 ← index o 0;
    o1 ← index o 1;
    __add__ o0 (inr o1).

Definition differentiate_Sub : rule :=
  λ expr o kw,
    o0 ← index o 0;
    o1 ← index o 1;
    __sub__ o0 (inr o1).

Definition differentiate_Mul : rule :=
  λ expr o kw,
    o0 ← index o 0;
    b ← index (operands expr) 1;
    l ← __mul__ o0 (inr b);
    o1 ← index o 1;
    a ← index (operands expr) 0;
    r ← __mul__ o1 (inr a);
    __add__ l (inr r).

Definition differentiate_Div : rule :=
  λ expr o kw,
    o0 ← index o 0;
    b ← index (operands expr) 1;
    l ← __mul__ o0 (inr b);
    a ← index (operands expr) 0;
    o1 ← index o 1;
    r ← __mul__ a (inr o1);
    num ← __sub__ l (inr r);
    b ← index (operands expr) 1;
    two ← Number (py_int 2);
    den ← __pow__ b (inr two);
    __truediv__ num (inr den).

Definition differentiate_Pow : rule :=
  λ expr o kw,
    b ← index (operands expr) 1;
    a ← index (operands expr) 0;
    b' ← index (operands expr) 1;
    e ← __sub__ b' (inl (PyInt 1));
    p ← __pow__ a (inr e);
    l ← __mul__ b (inr p);
    o0 ← index o 0;
    __mul__ l (inr o0).

(** The registry [differentiate.register] fills. *)
Definition registry (c : pyclass) : option rule :=
  match c with
  | cNumber => Some differentiate_Number
  | cSymbol => Some differentiate_Symbol
  | cAdd => Some differentiate_Add
  | cSub => Some differentiate_Sub
  | cMul => Some differentiate_Mul
  | cDiv => Some differentiate_Div
  | cPow => Some differentiate_Pow
  | _ => None
  end.

(** [differentiate(expr, *o, **kwargs)]: [singledispatch] picks the rule
    registered for the first class of the MRO of [type(expr)] that has one,
    and falls back to the undecorated body, which raises. *)
Definition differentiate : rule :=
  λ expr o kw,
    match class_attr registry (cls expr) with
    | Some r => r expr o kw
    | None =>
        raise (NotImplementedError
                 ("Cannot differentiate a " +:+ class_name (cls expr)))
    end.

(** ** Post-order visiting *)

Section Postvisitor.
Context {R K St : Type}.

(** The caller's function [fn(node, *o, **kwargs)]; it may have effects
    on a state [St] and may raise. *)
Definition visitor : Type := object → list R → K → M St R.

(** The dictionary [visited], keyed by object identity. *)
Local Abbreviation memo := (gmap nat R).

(** The operands [o] of [e] with [o not in visited], in operand order. *)
Definition unvisited_children (e : object) (visited : memo) : list object :=
  filter (λ o, visited !! oid o = None) (operands e).

(** [stack.append(child)] for each child in turn.  The stack is a list
    whose head is the top: [append] conses and [pop] takes the head. *)
Definition push_all (children stack : list object) : list object :=
  foldl (λ stk child, child :: stk) stack children.

(** [(visited[o] for o in os)] *)
Fixpoint results (visited : memo) (os : list object) : Res (list R) :=
  match os with
  | [] => Ok []
  | o :: os' =>
      match visited !! oid o with
      | None => Raise KeyError
      | Some r => rs ← results visited os'; mret (r :: rs)
      end
  end.

(** The body of the [while] loop, for the popped node [e]. *)
Definition iteration (fn : visitor) (kw : K)
    (e : object) (stack : list object) (visited : memo)
  : M St (list object * memo) :=
  match unvisited_children e visited with
  | [] =>
      args ← lift (results visited (operands e));
      r ← fn e args kw;
      mret (stack, <[oid e := r]> visited)
  | children => mret (push_all children (e :: stack), visited)
  end.

(** [while stack: ...], at most [fuel] iterations; [None] when the fuel
    runs out before the stack is empty. *)
Fixpoint while_stack (fn : visitor) (kw : K) (fuel : nat)
    (stack : list object) (visited : memo) (s : St)
  : option (Res (memo * St)) :=
  match stack with
  | [] => Some (Ok (visited, s))
  | e :: stack' =>
      match fuel with
      | 0 => None
      | S fuel' =>
          match iteration fn kw e stack' visited s with
          | Raise x => Some (Raise x)
          | Ok ((stack'', visited'), s') =>
              while_stack fn kw fuel' stack'' visited' s'
          end
      end
  end.

(** [postvisitor(expr, fn, **kwargs)] *)
Definition postvisitor (fn : visitor) (fuel : nat) (expr : object) (kw : K)
    (s : St) : option (Res (R * St)) :=
  match while_stack fn kw fuel [expr] ∅ s with
  | None => None
  | Some (Raise x) => Some (Raise x)
  | Some (Ok (visited, s')) =>
      match visited !! oid expr with
      | Some r => Some (Ok (r, s'))
      | None => Some (Raise KeyError)
      end
  end.
End Postvisitor.

(** *** Observing the calls

    [traced fn] behaves as [fn] and also records each call that returns,
    most recent first. *)
Record call (R K : Type) := Call {
  c_node : object;
  c_args : list R;
  c_kwargs : K;
  c_result : R
}.
Arguments Call {R K}.
Arguments c_node {R K}.
Arguments c_args {R K}.
Arguments c_kwargs {R K}.
Arguments c_result {R K}.

Definition traced {R K St} (fn : @visitor R K St)
  : @visitor R K (St * list (call R K)) :=
  λ e args kw st,
    match fn e args kw st.1 with
    | Ok (r, s') => Ok (r, (s', Call e args kw r :: st.2))
    | Raise x => Raise x
    end.

(** The most recent result recorded for the object of identity [i]. *)
Fixpoint latest {R K} (i : nat) (log : list (call R K)) : option R :=
  match log with
  | [] => None
  | c :: older =>
      if decide (oid (c_node c) = i) then Some (c_result c) else latest i older
  end.

(** The number of nodes of the tree an expression unfolds to: a shared
    node counts once for each path that reaches it. *)
Fixpoint size (e : object) : nat :=
  S (sum_list_with size (operands e)).

(** The identities of the nodes, each listed as often as it is reached. *)
Fixpoint ids (e : object) : list nat :=
  oid e :: mjoin (ids <$> operands e).

(** The number of distinct instances in the DAG rooted at [e]. *)
Definition distinct_nodes (e : object) : nat :=
  length (remove_dups (ids e)).

(** * Vocabulary of the statements *)

(** The identities of the nodes of the recorded calls, oldest first. *)
Definition visit_order {R K} (l : list (call R K)) : list nat :=
  reverse ((λ c, oid (c_node c)) <$> l).

Section Vocabulary.
Context {R K St : Type}.
Variable fn : @visitor R K St.
Variable kw : K.

Local Abbreviation memo := (gmap nat R).
Local Abbreviation log := (list (call R K)).

(** Dropping the record from an outcome. *)
Definition forget {A} (out : option (Res (A * (St * log))))
  : option (Res (A * St)) :=
  match out with
  | None => None
  | Some (Raise x) => Some (Raise x)
  | Some (Ok (a, (s, _))) => Some (Ok (a, s))
  end.

(** Each recorded call received the keyword arguments of [postvisitor]
    and, for each operand of its node in order, the most recent result
    recorded before the call. *)
Fixpoint postorder_log (l : log) : Prop :=
  match l with
  | [] => True
  | c :: older =>
      c_kwargs c = kw
      ∧ Forall2 (λ o a, latest (oid o) older = Some a)
                (operands (c_node c)) (c_args c)
      ∧ postorder_log older
  end.

(** [visited] holds, for each identity, the most recent recorded result. *)
Definition memo_of_log (visited : memo) (l : log) : Prop :=
  ∀ i, visited !! i = latest i l.

(** [finishes stack rest bound P visited s]: started with [stack] on top
    of [rest], the loop either raises or is back at [rest] with a larger
    [visited] satisfying [P], within [bound] iterations. *)
Definition finishes (stack rest : list object) (bound : nat)
    (P : memo → Prop) (visited : memo) (s : St) : Prop :=
  ∃ k, k ≤ bound ∧
    ((∃ x, ∀ fuel,
         while_stack fn kw (k + fuel) (stack ++ rest) visited s
         = Some (Raise x))
     ∨ (∃ visited' s',
          (∀ i, is_Some (visited !! i) → is_Some (visited' !! i)) ∧
          P visited' ∧
          ∀ fuel,
            while_stack fn kw (k + fuel) (stack ++ rest) visited s
            = while_stack fn kw fuel rest visited' s')).

Definition node_finishes (e : object) : Prop :=
  ∀ rest visited s,
    finishes [e] rest (2 * size e)
      (λ visited', is_Some (visited' !! oid e)) visited s.
End Vocabulary.

(** The nodes of the DAG rooted at [e], each listed as often as it is
    reached. *)
Fixpoint subterms (e : object) : list object :=
  e :: mjoin (subterms <$> operands e).

(** An identity names one object: two nodes of the DAG with the same
    identity are the same node.  Every object graph of the interpreter is
    such. *)
Definition identities_agree (root : object) : Prop :=
  ∀ a b, a ∈ subterms root → b ∈ subterms root → oid a = oid b → a = b.

(** A function without effects, as a visitor. *)
Definition pure {R K St} (f : object → list R → K → R) : @visitor R K St :=
  λ e args kw, mret (f e args kw).

(** The recursive post-order visit: [f(e, *(visit(o) for o in e.operands))]. *)
Fixpoint visit_recursively {R K} (f : object → list R → K → R) (kw : K)
    (e : object) : R :=
  f e (visit_recursively f kw <$> operands e) kw.

(** The expressions of the data model: a [Number] holding a number, a
    [Symbol] holding a value, or one of the five operators over two such
    expressions. *)
Fixpoint well_formed (e : object) : bool :=
  match cls e, operands e, value e with
  | cNumber, [], Some (PyNum _) => true
  | cSymbol, [], Some _ => true
  | (cAdd | cSub | cMul | cDiv | cPow), [a; b], None =>
      well_formed a && well_formed b
  | _, _, _ => false
  end.

(** A binary node and a number leaf, as the constructors lay them out. *)
Definition node (i : nat) (c : pyclass) (a b : object) : object :=
  Obj i c [a; b] None.

Definition leaf (i : nat) (n : number) : object :=
  Obj i cNumber [] (Some (PyNum n)).

(** The rational an expression stands for when its symbols are read in
    [env]; [None] when it has no such reading (a malformed node, a
    division by zero, an exponent that is not a whole number).  The module
    has no evaluator: this reading only serves to say that two
    expressions are equivalent. *)
Definition whole (q : Q) : option Z :=
  let r := Qred q in
  if decide (Qden r = 1%positive) then Some (Qnum r) else None.

Fixpoint denote (env : string → Q) (e : object) : option Q :=
  match cls e, operands e, value e with
  | cNumber, [], Some (PyNum n) => Some (number_Q n)
  | cSymbol, [], Some (PyStr name) => Some (env name)
  | cAdd, [a; b], None =>
      x ← denote env a; y ← denote env b; Some (x + y)%Q
  | cSub, [a; b], None =>
      x ← denote env a; y ← denote env b; Some (x - y)%Q
  | cMul, [a; b], None =>
      x ← denote env a; y ← denote env b; Some (x * y)%Q
  | cDiv, [a; b], None =>
      x ← denote env a; y ← denote env b;
      if Qeq_bool y 0 then None else Some (x / y)%Q
  | cPow, [a; b], None =>
      x ← denote env a; y ← denote env b; k ← whole y; Some (x ^ k)%Q
  | _, _, _ => None
  end.

(** A runtime for the closed examples: a whole float prints as CPython
    prints it ([1.0]); the two other texts are placeholders, and no
    example reaches them. *)
Definition sample_runtime : Runtime := {|
  float_str x :=
    match whole x with
    | Some k => NilZero.string_of_int (Z.to_int k) +:+ ".0"
    | None => "<float>"
    end;
  object_str c i := "<" +:+ class_name c +:+ " object>"
|}.

(** The text of the [TypeError] of [Number.__init__]. *)
Definition payload_error (v : pyval) : exn :=
  TypeError ("Val input of type: " +:+ type_name v +:+
             "Expected val of type type.").

(** ** Sample expressions *)

(** [x = Symbol("x")] as the first object allocated. *)
Definition sym_x : object := Obj 0 cSymbol [] (Some (PyStr "x")).

(** [x + x]: the one instance [x] is both operands of the sum. *)
Definition x_plus_x : object := node 1 cAdd sym_x sym_x.

(** [x + x * 3]: [x] is an operand of the sum and of the product. *)
Definition num_3 : object := leaf 1 (PyInt 3).
Definition x_times_3 : object := node 2 cMul sym_x num_3.
Definition x_plus_x_times_3 : object := node 3 cAdd sym_x x_times_3.

(** [x ** 3] and [x * x] *)
Definition x_pow_3 : object := node 2 cPow sym_x num_3.
Definition x_times_x : object := node 1 cMul sym_x sym_x.

(** [(a + b) * c] and [a + b * c] *)
Definition sym_a : object := Obj 0 cSymbol [] (Some (PyStr "a")).
Definition sym_b : object := Obj 1 cSymbol [] (Some (PyStr "b")).
Definition sym_c : object := Obj 2 cSymbol [] (Some (PyStr "c")).
Definition sum_times_c : object :=
  node 4 cMul (node 3 cAdd sym_a sym_b) sym_c.
Definition a_plus_product : object :=
  node 4 cAdd sym_a (node 3 cMul sym_b sym_c).

(** An instance of [Expression] itself. *)
Definition plain_expression : object := Obj 0 cExpression [] None.

(** The keyword arguments [var="x"]. *)
Definition var_x : kwargs := [("var", py_str "x")].

(** ** Vocabulary of the further properties *)

(** [visited] relates every node of the DAG that it holds to its result
    by [P]. *)
Definition memo_related {R} (root : object) (P : object → R → Prop)
    (visited : gmap nat R) : Prop :=
  ∀ x r, x ∈ subterms root → visited !! oid x = Some r → P x r.

(** What [fn] is asked to do for the nodes of [root]: from results related
    to the operands by [P], return a result related to the node, or raise
    an exception in [E]. *)
Definition visitor_establishes {R K St} (fn : @visitor R K St) (kw : K)
    (root : object) (P : object → R → Prop) (E : exn → Prop) : Prop :=
  ∀ e args s,
    e ∈ subterms root →
    Forall2 P (operands e) args →
    match fn e args kw s with
    | Ok (r, _) => P e r
    | Raise x => E x
    end.

(** [P] does not tell apart two nodes of [root] of the same identity. *)
Definition respects_identity {R} (root : object) (P : object → R → Prop)
  : Prop :=
  ∀ x y r, x ∈ subterms root → y ∈ subterms root → oid x = oid y →
           P x r → P y r.

(** Whether a [Symbol] occurs in the expression. *)
Fixpoint has_symbol (e : object) : bool :=
  bool_decide (cls e = cSymbol) || existsb has_symbol (operands e).

(** The [TypeError] of a call that lacks the keyword-only argument [var]. *)
Definition missing_var : exn :=
  TypeError "_() missing 1 required keyword-only argument: 'var'".

(** The identities of the nodes of the recorded calls, most recent first. *)
Definition call_ids {R K} (l : list (call R K)) : list nat :=
  (λ c, oid (c_node c)) <$> l.

(** On a tree, started with [stack] on top of [rest] and none of the nodes
    under [stack] visited, the traced loop either raises or is back at
    [rest] having visited exactly those nodes, the record grown by
    [visits], within [bound] iterations. *)
Definition tree_finishes {R K St} (fn : @visitor R K St) (kw : K)
    (stack rest : list object) (bound : nat) (visits : list nat)
    (visited : gmap nat R) (s : St) (l : list (call R K)) : Prop :=
  ∃ k, k ≤ bound ∧
    ((∃ x, ∀ fuel,
         while_stack (traced fn) kw (k + fuel) (stack ++ rest) visited (s, l)
         = Some (Raise x))
     ∨ (∃ visited' s' l',
          (∀ i, is_Some (visited' !! i)
                ↔ is_Some (visited !! i) ∨ i ∈ mjoin (ids <$> stack)) ∧
          call_ids l' = visits ++ call_ids l ∧
          ∀ fuel,
            while_stack (traced fn) kw (k + fuel) (stack ++ rest) visited (s, l)
            = while_stack (traced fn) kw fuel rest visited' (s', l'))).

Definition tree_node_finishes {R K St} (fn : @visitor R K St) (kw : K)
    (e : object) : Prop :=
  NoDup (ids e) →
  ∀ rest visited s l,
    (∀ i, i ∈ ids e → visited !! i = None) →
    tree_finishes fn kw [e] rest (2 * size e) (ids e) visited s l.

(** The forward operators, each with the class of the node it builds. *)
Definition forward_operators
  : list ((object → number + object → M nat object) * pyclass) :=
  [(__add__, cAdd); (__sub__, cSub); (__mul__, cMul);
   (__truediv__, cDiv); (__pow__, cPow)].

(** The operators with a value on the left and an expression on the
    right. *)
Definition left_operators
  : list ((pyval → object → M nat object) * pyclass) :=
  [(binary_add, cAdd); (binary_sub, cSub); (binary_mul, cMul);
   (binary_truediv, cDiv); (binary_pow, cPow)].

(** *** The real function an expression stands for

    The module differentiates, and has no evaluator to say of what.  The
    reading below is the usual one: a [Number] is its value, a [Symbol]
    the value [env] gives to its name, the operators are those of the
    reals, and a power is taken to the whole part of its exponent. *)
Definition number_R (n : number) : R :=
  match n with
  | PyInt z => IZR z
  | PyFloat x => Q2R x
  | PyBool b => if b then 1%R else 0%R
  end.

Fixpoint real (env : string → R) (e : object) : R :=
  match cls e, operands e, value e with
  | cNumber, [], Some (PyNum n) => number_R n
  | cSymbol, [], Some (PyStr name) => env name
  | cAdd, [a; b], None => (real env a + real env b)%R
  | cSub, [a; b], None => (real env a - real env b)%R
  | cMul, [a; b], None => (real env a * real env b)%R
  | cDiv, [a; b], None => (real env a / real env b)%R
  | cPow, [a; b], None =>
      (real env a ^ Z.to_nat (Int_part (real env b)))%R
  | _, _, _ => 0%R
  end.

(** [env] with the symbol [x] set to [u]. *)
Definition at_var (env : string → R) (x : string) (u : R) : string → R :=
  λ name, if String.eqb name x then u else env name.

(** The expressions the rules are meant for, at the point [env]: symbols
    are named by strings, no divisor is zero, and every exponent is a
    whole [Number], at least one (the rule for [Pow] takes its exponent
    for a constant). *)
Fixpoint regular (env : string → R) (e : object) : Prop :=
  match cls e, operands e, value e with
  | cNumber, [], Some (PyNum _) => True
  | cSymbol, [], Some (PyStr _) => True
  | (cAdd | cSub | cMul), [a; b], None => regular env a ∧ regular env b
  | cDiv, [a; b], None =>
      regular env a ∧ regular env b ∧ real env b ≠ 0%R
  | cPow, [a; b], None =>
      regular env a
      ∧ ∃ k i, b = leaf i (PyInt k) ∧ (1 ≤ k)%Z
  | _, _, _ => False
  end.

(** The derivative of an expression [e], as the rules should compute it:
    [d] is an expression of the data model and, where [e] is regular, its
    value is the derivative of the value of [e] in [x] at [t]. *)
Definition derivative_of (env : string → R) (x : string) (t : R)
    (e d : object) : Prop :=
  well_formed d = true
  ∧ (regular (at_var env x t) e →
     derivable_pt_lim (λ u, real (at_var env x u) e) t
       (real (at_var env x t) d)).

(** Started with [stack] on top of [rest], the traced loop either raises
    or is back at [rest] with the nodes of [stack] visited, having made
    calls only on nodes under [stack], and on none more often than it
    occurs there, within [bound] iterations. *)
Definition dag_finishes {R K St} (fn : @visitor R K St) (kw : K)
    (stack rest : list object) (bound : nat)
    (visited : gmap nat R) (s : St) (l : list (call R K)) : Prop :=
  ∃ k, k ≤ bound ∧
    ((∃ x, ∀ fuel,
         while_stack (traced fn) kw (k + fuel) (stack ++ rest) visited (s, l)
         = Some (Raise x))
     ∨ (∃ visited' s' l' new,
          (∀ i, is_Some (visited !! i) → is_Some (visited' !! i)) ∧
          (∀ o, o ∈ stack → is_Some (visited' !! oid o)) ∧
          call_ids l' = new ++ call_ids l ∧
          new ⊆+ mjoin (ids <$> stack) ∧
          ∀ fuel,
            while_stack (traced fn) kw (k + fuel) (stack ++ rest) visited (s, l)
            = while_stack (traced fn) kw fuel rest visited' (s', l'))).

(** * Properties *)

(** ** The sample expressions are what the constructors build *)

Lemma x_plus_x_built :
  (x ← Symbol (PyStr "x"); __add__ x (inr x)) 0 = Ok (x_plus_x, 2).
Proof. reflexivity. Qed.

Lemma x_plus_x_times_3_built :
  (x ← Symbol (PyStr "x");
   p ← __mul__ x (inl (PyInt 3));
   __add__ x (inr p)) 0 = Ok (x_plus_x_times_3, 4).
Proof. reflexivity. Qed.

Lemma x_pow_3_built :
  (x ← Symbol (PyStr "x"); __pow__ x (inl (PyInt 3))) 0 = Ok (x_pow_3, 3).
Proof. reflexivity. Qed.

Lemma x_times_x_built :
  (x ← Symbol (PyStr "x"); __mul__ x (inr x)) 0 = Ok (x_times_x, 2).
Proof. reflexivity. Qed.

Lemma sum_times_c_built :
  (a ← Symbol (PyStr "a"); b ← Symbol (PyStr "b"); c ← Symbol (PyStr "c");
   s ← __add__ a (inr b); __mul__ s (inr c)) 0 = Ok (sum_times_c, 5).
Proof. reflexivity. Qed.

Lemma a_plus_product_built :
  (a ← Symbol (PyStr "a"); b ← Symbol (PyStr "b"); c ← Symbol (PyStr "c");
   p ← __mul__ b (inr c); __add__ a (inr p)) 0 = Ok (a_plus_product, 5).
Proof. reflexivity. Qed.

Lemma plain_expression_built : Expression [] 0 = Ok (plain_expression, 1).
Proof. reflexivity. Qed.

(** ** The loop of [postvisitor] *)

Section Loop.
Context {R K St : Type}.
Variable fn : @visitor R K St.
Variable kw : K.

Local Abbreviation memo := (gmap nat R).

Lemma push_all_reverse (children stack : list object) :
  push_all children stack = reverse children ++ stack.
Proof.
  unfold push_all. revert stack.
  induction children as [|c cs IH]; intros stack; simpl; [done|].
  rewrite IH, reverse_cons, <- app_assoc. done.
Qed.

Lemma size_unfold (e : object) :
  size e = S (sum_list_with size (operands e)).
Proof. by destruct e. Qed.

Lemma size_operand (e o : object) : o ∈ operands e → size o < size e.
Proof.
  intros Hin. rewrite (size_unfold e).
  pose proof (sum_list_with_in o size (operands e) Hin). lia.
Qed.

Lemma sum_size_filter (P : object → Prop) `{∀ o, Decision (P o)}
    (l : list object) :
  sum_list_with size (filter P l) ≤ sum_list_with size l.
Proof.
  induction l as [|o l IH]; [done|].
  rewrite filter_cons. destruct (decide (P o)); simpl; lia.
Qed.

(** No lookup fails once every operand is in [visited]. *)
Lemma results_total (visited : memo) (os : list object) :
  (∀ o, o ∈ os → is_Some (visited !! oid o)) →
  ∃ args, results visited os = Ok args.
Proof.
  induction os as [|o os IH]; intros Hall; simpl; [by eexists|].
  destruct (Hall o) as [r Hr]; [by left|]. rewrite Hr.
  destruct IH as [rs Hrs]; [intros p Hp; apply Hall; by right|].
  rewrite Hrs. by eexists.
Qed.

Lemma unvisited_children_nil (e : object) (visited : memo) :
  unvisited_children e visited = [] ↔
  ∀ o, o ∈ operands e → is_Some (visited !! oid o).
Proof.
  unfold unvisited_children. split.
  - intros Hnil o Hin. destruct (visited !! oid o) eqn:Hl; [by eexists|].
    assert (o ∈ filter (λ o, visited !! oid o = None) (operands e)) as Ho
      by (apply list_elem_of_filter; done).
    rewrite Hnil in Ho. by apply elem_of_nil in Ho.
  - intros Hall.
    destruct (filter _ _) as [|o l] eqn:Hf; [done|].
    assert (o ∈ filter (λ o, visited !! oid o = None) (operands e)) as Ho
      by (rewrite Hf; left).
    apply list_elem_of_filter in Ho as [Hnone Hin].
    destruct (Hall o Hin) as [r Hr]. congruence.
Qed.

Lemma list_finishes (l : list object) :
  (∀ o, o ∈ l → node_finishes fn kw o) →
  ∀ rest visited s,
    finishes fn kw l rest (2 * sum_list_with size l)
      (λ visited', ∀ o, o ∈ l → is_Some (visited' !! oid o)) visited s.
Proof.
  induction l as [|o l IH]; intros Hl rest visited s.
  - exists 0. split; [simpl; lia|]. right. exists visited, s.
    split_and!; [done| |done]. intros o Ho. by apply elem_of_nil in Ho.
  - destruct (Hl o (list_elem_of_here _ _) (l ++ rest) visited s)
      as (k1 & Hk1 & [[x Hx]|(v1 & s1 & Hmono1 & Ho & Hrun1)]).
    + exists k1. split; [simpl; lia|]. left. exists x. exact Hx.
    + destruct (IH (λ p Hp, Hl p (list_elem_of_further _ _ _ Hp)) rest v1 s1)
        as (k2 & Hk2 & [[x Hx]|(v2 & s2 & Hmono2 & Hall & Hrun2)]).
      * exists (k1 + k2). split; [simpl; lia|]. left. exists x.
        intros fuel. simpl in Hrun1 |- *.
        rewrite <- Nat.add_assoc, Hrun1. apply Hx.
      * exists (k1 + k2). split; [simpl; lia|]. right. exists v2, s2.
        split_and!.
        -- intros i Hi. by apply Hmono2, Hmono1.
        -- intros p Hp. apply elem_of_cons in Hp as [->|Hp].
           ++ by apply Hmono2.
           ++ by apply Hall.
        -- intros fuel. simpl in Hrun1 |- *.
           rewrite <- Nat.add_assoc, Hrun1. apply Hrun2.
Qed.

(** The last visit to [e], when all its operands are in [visited]. *)
Lemma visit_ready (e : object) (rest : list object) (visited : memo) (s : St) :
  (∀ o, o ∈ operands e → is_Some (visited !! oid o)) →
  finishes fn kw [e] rest 1 (λ visited', is_Some (visited' !! oid e)) visited s.
Proof.
  intros Hall. exists 1. split; [lia|].
  destruct (results_total visited (operands e) Hall) as [args Hargs].
  pose proof (proj2 (unvisited_children_nil e visited) Hall) as Hnil.
  destruct (fn e args kw s) as [[r s']|x] eqn:Hfn.
  - right. exists (<[oid e := r]> visited), s'. split_and!.
    + intros i Hi. destruct (decide (oid e = i)) as [->|Hne].
      * rewrite lookup_insert_eq. by eexists.
      * by rewrite lookup_insert_ne.
    + rewrite lookup_insert_eq. by eexists.
    + intros fuel. simpl. unfold iteration. rewrite Hnil.
      unfold mbind, M_bind, bind, lift. rewrite Hargs, Hfn. done.
  - left. exists x. intros fuel. simpl. unfold iteration. rewrite Hnil.
    unfold mbind, M_bind, bind, lift. rewrite Hargs, Hfn. done.
Qed.

Lemma sum_size_unvisited (e : object) (visited : memo) :
  sum_list_with size (unvisited_children e visited) < size e.
Proof.
  rewrite (size_unfold e). unfold unvisited_children.
  pose proof (sum_size_filter (λ o, visited !! oid o = None) (operands e)).
  lia.
Qed.

Lemma iteration_push (e : object) (rest : list object) (visited : memo)
    (s : St) (fuel : nat) :
  unvisited_children e visited ≠ [] →
  while_stack fn kw (S fuel) (e :: rest) visited s
  = while_stack fn kw fuel
      (reverse (unvisited_children e visited) ++ e :: rest) visited s.
Proof.
  intros Hne. simpl. unfold iteration.
  destruct (unvisited_children e visited) as [|c cs]; [done|].
  by rewrite push_all_reverse.
Qed.

Lemma node_finishes_all (e : object) : node_finishes fn kw e.
Proof.
  remember (size e) as n eqn:Hn. revert e Hn.
  induction n as [n IH] using lt_wf_ind. intros e -> rest visited s.
  destruct (decide (unvisited_children e visited = [])) as [Hnil|Hne].
  - destruct (visit_ready e rest visited s) as (k & Hk & Hfin).
    { by apply unvisited_children_nil. }
    exists k. split; [|exact Hfin].
    rewrite (size_unfold e). lia.
  - (* the node is pushed back under its unvisited operands *)
    pose proof (sum_size_unvisited e visited) as Hsize.
    pose proof (iteration_push e rest visited s) as Hpush.
    set (children := unvisited_children e visited) in *.
    assert (∀ o, o ∈ children → o ∈ operands e ∧ visited !! oid o = None)
      as Hsub.
    { intros o Ho. apply list_elem_of_filter in Ho as [? ?]. done. }
    destruct (list_finishes (reverse children)) with (rest := e :: rest)
      (visited := visited) (s := s)
      as (k1 & Hk1 & [[x Hx]|(v1 & s1 & Hmono & Hall & Hrun1)]).
    { intros o Ho. apply (IH (size o)); [|done].
      apply size_operand, Hsub. by apply elem_of_reverse. }
    + rewrite sum_list_with_reverse in Hk1.
      exists (1 + k1). split; [lia|].
      left. exists x. intros fuel.
      change (1 + k1 + fuel) with (S (k1 + fuel)).
      rewrite (Hpush _ Hne). apply Hx.
    + rewrite sum_list_with_reverse in Hk1.
      destruct (visit_ready e rest v1 s1) as (k2 & Hk2 & Hfin).
      { intros o Ho. destruct (visited !! oid o) eqn:Hl.
        - apply Hmono. by eexists.
        - apply Hall, elem_of_reverse_2, list_elem_of_filter. done. }
      assert (∀ fuel,
        while_stack fn kw (1 + k1 + k2 + fuel) ([e] ++ rest) visited s
        = while_stack fn kw (k2 + fuel) ([e] ++ rest) v1 s1) as Hprefix.
      { intros fuel.
        change (1 + k1 + k2 + fuel) with (S (k1 + k2 + fuel)).
        cbn [app]. rewrite (Hpush _ Hne), <- Nat.add_assoc. apply Hrun1. }
      exists (1 + k1 + k2). split; [lia|].
      destruct Hfin as [[x Hx]|(v2 & s2 & Hmono2 & He & Hrun2)].
      * left. exists x. intros fuel. rewrite Hprefix. apply Hx.
      * right. exists v2, s2. split_and!; [|done|].
        -- intros i Hi. by apply Hmono2, Hmono.
        -- intros fuel. rewrite Hprefix. apply Hrun2.
Qed.

(** More fuel than needed changes nothing. *)
Lemma while_stack_more_fuel (fuel extra : nat) stack (visited : memo) s out :
  while_stack fn kw fuel stack visited s = Some out →
  while_stack fn kw (fuel + extra) stack visited s = Some out.
Proof.
  revert stack visited s.
  induction fuel as [|fuel IH]; intros stack visited s; simpl.
  - destruct stack; [|done]. intros <-. by destruct extra.
  - destruct stack as [|e stack]; [done|].
    destruct (iteration fn kw e stack visited s) as [[[stk v] s']|x]; [|done].
    apply IH.
Qed.

(** The loop stops within [2 * size expr] iterations, and then [expr]
    is in [visited] unless [fn] raised. *)
Lemma while_stack_terminates (expr : object) (s : St) (fuel : nat) :
  2 * size expr ≤ fuel →
  (∃ x, while_stack fn kw fuel [expr] ∅ s = Some (Raise x))
  ∨ (∃ visited s',
       while_stack fn kw fuel [expr] ∅ s = Some (Ok (visited, s'))
       ∧ is_Some (visited !! oid expr)).
Proof.
  intros Hfuel.
  destruct (node_finishes_all expr [] ∅ s)
    as (k & Hk & [[x Hx]|(v & s' & _ & Hin & Hrun)]).
  - left. exists x. replace fuel with (k + (fuel - k)) by lia. apply Hx.
  - right. exists v, s'. split; [|done].
    replace fuel with (k + (fuel - k)) by lia.
    cbn [app] in Hrun. rewrite (Hrun (fuel - k)). by destruct (fuel - k).
Qed.

(** The loop itself never raises: an exception comes out of [fn]. *)
Lemma iteration_raise (e : object) (stack : list object) (visited : memo)
    (s : St) (x : exn) :
  iteration fn kw e stack visited s = Raise x →
  ∃ args, fn e args kw s = Raise x.
Proof.
  unfold iteration.
  destruct (unvisited_children e visited) as [|c cs] eqn:Hun; [|done].
  destruct (results_total visited (operands e)) as [args Hargs].
  { by apply unvisited_children_nil. }
  unfold mbind, M_bind, bind, lift. rewrite Hargs.
  destruct (fn e args kw s) as [[r s']|y] eqn:Hfn; [done|].
  intros [= ->]. by exists args.
Qed.

Lemma while_stack_raise (fuel : nat) stack (visited : memo) s x :
  while_stack fn kw fuel stack visited s = Some (Raise x) →
  ∃ e args s0, fn e args kw s0 = Raise x.
Proof.
  revert stack visited s.
  induction fuel as [|fuel IH]; intros stack visited s;
    destruct stack as [|e stack]; simpl; try done.
  destruct (iteration fn kw e stack visited s) as [[[stk v] s']|y] eqn:Hit.
  - apply IH.
  - intros [= ->]. apply iteration_raise in Hit as [args Hargs]. eauto.
Qed.
End Loop.

(** ** Recording the calls does not change the run *)

Section Trace.
Context {R K St : Type}.
Variable fn : @visitor R K St.
Variable kw : K.

Local Abbreviation memo := (gmap nat R).
Local Abbreviation log := (list (call R K)).

Lemma traced_iteration (e : object) (stack : list object) (visited : memo)
    (s : St) (l : log) :
  match iteration (traced fn) kw e stack visited (s, l) with
  | Ok (fr, (s', _)) => iteration fn kw e stack visited s = Ok (fr, s')
  | Raise x => iteration fn kw e stack visited s = Raise x
  end.
Proof.
  unfold iteration.
  destruct (unvisited_children e visited) as [|c cs]; [|done].
  unfold mbind, M_bind, bind, lift, traced.
  destruct (results visited (operands e)) as [args|x]; [|done]. simpl.
  destruct (fn e args kw s) as [[r s']|x]; done.
Qed.

Lemma traced_while_stack (fuel : nat) (stack : list object)
    (visited : memo) (s : St) (l : log) :
  forget (while_stack (traced fn) kw fuel stack visited (s, l))
  = while_stack fn kw fuel stack visited s.
Proof.
  revert stack visited s l.
  induction fuel as [|fuel IH]; intros stack visited s l;
    destruct stack as [|e stack]; simpl; try done.
  pose proof (traced_iteration e stack visited s l) as Hit.
  destruct (iteration (traced fn) kw e stack visited (s, l))
    as [[[stk v] [s' l']]|x]; rewrite Hit; [apply IH|done].
Qed.

Lemma traced_postvisitor (fuel : nat) (expr : object) (s : St) (l : log) :
  forget (postvisitor (traced fn) fuel expr kw (s, l))
  = postvisitor fn fuel expr kw s.
Proof.
  unfold postvisitor. rewrite <- (traced_while_stack fuel [expr] ∅ s l).
  destruct (while_stack (traced fn) kw fuel [expr] ∅ (s, l))
    as [[[v [s' l']]|x]|]; simpl; try done.
  by destruct (v !! oid expr).
Qed.

Lemma traced_raise (e : object) (args : list R) (st : St * log) (x : exn) :
  traced fn e args kw st = Raise x → fn e args kw st.1 = Raise x.
Proof.
  unfold traced. destruct (fn e args kw st.1) as [[r s']|y]; [done|].
  by intros [= ->].
Qed.

Lemma results_Forall2 (visited : memo) (os : list object) (args : list R) :
  results visited os = Ok args →
  Forall2 (λ o a, visited !! oid o = Some a) os args.
Proof.
  revert args. induction os as [|o os IH]; intros args; simpl.
  - intros [= <-]. constructor.
  - destruct (visited !! oid o) as [r|] eqn:Hr; [|done].
    destruct (results visited os) as [rs|x]; [|done]. simpl.
    intros [= <-]. constructor; [done|]. by apply IH.
Qed.

Lemma traced_iteration_inv (e : object) (stack : list object)
    (visited : memo) (s : St) (l : log) stack' visited' s' l' :
  memo_of_log visited l → postorder_log kw l →
  iteration (traced fn) kw e stack visited (s, l)
  = Ok ((stack', visited'), (s', l')) →
  memo_of_log visited' l' ∧ postorder_log kw l'.
Proof.
  intros Hmemo Hlog. unfold iteration.
  destruct (unvisited_children e visited) as [|c cs].
  - unfold mbind, M_bind, bind, lift, traced.
    destruct (results visited (operands e)) as [args|x] eqn:Hargs; [|done].
    simpl. destruct (fn e args kw s) as [[r s1]|x]; [|done].
    intros [= <- <- <- <-]. split.
    + intros i. simpl. destruct (decide (oid e = i)) as [->|Hne].
      * by rewrite lookup_insert_eq.
      * rewrite lookup_insert_ne by done. apply Hmemo.
    + simpl. split_and!; [done| |done].
      apply results_Forall2 in Hargs.
      eapply Forall2_impl; [exact Hargs|].
      intros o a Ho. simpl in Ho. by rewrite <- Hmemo.
  - intros [= <- <- <- <-]. done.
Qed.

Lemma traced_while_stack_inv (fuel : nat) (stack : list object)
    (visited : memo) (s : St) (l : log) visited' s' l' :
  memo_of_log visited l → postorder_log kw l →
  while_stack (traced fn) kw fuel stack visited (s, l)
  = Some (Ok (visited', (s', l'))) →
  memo_of_log visited' l' ∧ postorder_log kw l'.
Proof.
  revert stack visited s l.
  induction fuel as [|fuel IH]; intros stack visited s l Hmemo Hlog;
    destruct stack as [|e stack]; simpl; try done;
    try (by intros [= <- <- <-]).
  destruct (iteration (traced fn) kw e stack visited (s, l))
    as [[[stk v] [s1 l1]]|x] eqn:Hit; [|done].
  destruct (traced_iteration_inv _ _ _ _ _ _ _ _ _ Hmemo Hlog Hit).
  by apply IH.
Qed.
End Trace.

(** ** With a function without effects, the loop computes the recursive visit *)

Section Pure.
Context {R K St : Type}.
Variable f : object → list R → K → R.
Variable kw : K.
Variable root : object.
Hypothesis Hroot : identities_agree root.

Local Abbreviation memo := (gmap nat R).

Lemma subterms_self (e : object) : e ∈ subterms e.
Proof. destruct e. simpl. left. Qed.

Lemma subterms_operand (e x o : object) :
  x ∈ subterms e → o ∈ operands x → o ∈ subterms e.
Proof.
  remember (size e) as n eqn:Hn. revert e Hn.
  induction n as [n IH] using lt_wf_ind. intros e -> Hx Ho.
  destruct e as [i c ops v]. simpl in Hx |- *.
  apply elem_of_cons in Hx as [->|Hx].
  - right. simpl in Ho. apply list_elem_of_join.
    exists (subterms o). split; [apply subterms_self|].
    apply list_elem_of_fmap. by exists o.
  - right. apply list_elem_of_join in Hx as (l & Hxl & Hl).
    apply list_elem_of_fmap in Hl as (p & -> & Hp).
    apply list_elem_of_join. exists (subterms p). split.
    + apply (IH (size p)); [|done|done|done].
      apply (size_operand (Obj i c ops v) p). done.
    + apply list_elem_of_fmap. by exists p.
Qed.

(** [visited] holds the recursive visit of every node it has. *)
Definition memo_sound (visited : memo) : Prop :=
  ∀ x r, x ∈ subterms root → visited !! oid x = Some r →
         r = visit_recursively f kw x.

Lemma visit_recursively_unfold (e : object) :
  visit_recursively f kw e = f e (visit_recursively f kw <$> operands e) kw.
Proof. by destruct e. Qed.

Lemma results_sound (visited : memo) (os : list object) (args : list R) :
  memo_sound visited →
  (∀ o, o ∈ os → o ∈ subterms root) →
  results visited os = Ok args →
  args = visit_recursively f kw <$> os.
Proof.
  intros Hsound. revert args.
  induction os as [|o os IH]; intros args Hsub; simpl.
  - by intros [= <-].
  - destruct (visited !! oid o) as [r|] eqn:Hr; [|done].
    destruct (results visited os) as [rs|x] eqn:Hrs; [|done]. simpl.
    intros [= <-]. f_equal.
    + apply Hsound; [apply Hsub; left|done].
    + apply IH; [|done]. intros p Hp. apply Hsub. by right.
Qed.

Lemma pure_iteration (e : object) (stack : list object) (visited : memo)
    (s : St) :
  e ∈ subterms root →
  (∀ x, x ∈ stack → x ∈ subterms root) →
  memo_sound visited →
  ∃ stack' visited',
    iteration (pure f) kw e stack visited s = Ok ((stack', visited'), s)
    ∧ (∀ x, x ∈ stack' → x ∈ subterms root)
    ∧ memo_sound visited'.
Proof.
  intros He Hstack Hsound. unfold iteration.
  destruct (unvisited_children e visited) as [|c cs] eqn:Hun.
  - destruct (results_total visited (operands e)) as [args Hargs].
    { by apply unvisited_children_nil. }
    unfold mbind, M_bind, bind, lift, pure. rewrite Hargs. simpl.
    eexists _, _. split_and!; [reflexivity|done|].
    intros x r Hx. destruct (decide (oid e = oid x)) as [Heq|Hne].
    + rewrite Heq, lookup_insert_eq. intros [= <-].
      rewrite <- (Hroot e x He Hx Heq), visit_recursively_unfold.
      f_equal. apply (results_sound visited); [done| |done].
      intros o Ho. by apply (subterms_operand root e).
    + rewrite lookup_insert_ne by done. by apply Hsound.
  - eexists _, _. split_and!; [reflexivity| |done].
    intros x. rewrite push_all_reverse, elem_of_app, elem_of_reverse.
    intros [Hx|Hx].
    + rewrite <- Hun in Hx. apply list_elem_of_filter in Hx as [_ Hx].
      by apply (subterms_operand root e).
    + apply elem_of_cons in Hx as [->|Hx]; [done|by apply Hstack].
Qed.

Lemma pure_while_stack (fuel : nat) (stack : list object) (visited : memo)
    (s : St) visited' s' :
  (∀ x, x ∈ stack → x ∈ subterms root) →
  memo_sound visited →
  while_stack (pure f) kw fuel stack visited s = Some (Ok (visited', s')) →
  memo_sound visited' ∧ s' = s.
Proof.
  revert stack visited.
  induction fuel as [|fuel IH]; intros stack visited Hstack Hsound;
    destruct stack as [|e stack]; simpl; try done;
    try (by intros [= <- <-]).
  destruct (pure_iteration e stack visited s)
    as (stk & v & -> & Hstk & Hv); [apply Hstack; left| |done|].
  { intros x Hx. apply Hstack. by right. }
  by apply IH.
Qed.

(** X4.  On a DAG whose identities agree, [postvisitor] with a function
    without effects returns what the recursive visit returns. *)
Lemma postvisitor_pure (s : St) (fuel : nat) :
  2 * size root ≤ fuel →
  postvisitor (pure f) fuel root kw s
  = Some (Ok (visit_recursively f kw root, s)).
Proof.
  intros Hfuel. unfold postvisitor.
  destruct (while_stack_terminates (pure f) kw root s fuel Hfuel)
    as [[x Hx]|(v & s' & Hrun & [r Hr])].
  - apply while_stack_raise in Hx as (e & args & s0 & Hraise). done.
  - rewrite Hrun, Hr.
    destruct (pure_while_stack fuel [root] ∅ s v s') as [Hsound ->];
      [|done|done|].
    { intros x Hx. apply list_elem_of_singleton in Hx as ->.
      apply subterms_self. }
    by rewrite (Hsound root r (subterms_self root) Hr).
Qed.
End Pure.

(** The sample [x + x * 3] is such a DAG. *)
Lemma x_plus_x_times_3_identities : identities_agree x_plus_x_times_3.
Proof.
  intros a b Ha Hb. rewrite list_elem_of_In in Ha, Hb. simpl in Ha, Hb.
  intuition (subst; first [reflexivity|discriminate]).
Qed.

Lemma postvisitor_pure_witness :
  identities_agree x_plus_x_times_3
  ∧ 2 * size x_plus_x_times_3 ≤ 10
  ∧ postvisitor (pure (λ e (args : list nat) (_ : unit), S (sum_list args)))
      10 x_plus_x_times_3 () ()
    = Some (Ok (visit_recursively
                  (λ e (args : list nat) (_ : unit), S (sum_list args)) ()
                  x_plus_x_times_3, ())).
Proof.
  split; [exact x_plus_x_times_3_identities|].
  split; [vm_compute; lia|].
  apply (postvisitor_pure _ () x_plus_x_times_3 x_plus_x_times_3_identities).
  vm_compute; lia.
Defined.

(** ** Theorems about [postvisitor] *)

(** C1 (fails on the code).  The claim is one call of [fn] per distinct
    instance.  On [x + x], two distinct instances, [postvisitor] calls
    [fn] three times: [x] is pushed twice, and a node that is popped with
    all its operands visited is visited whether or not it already is in
    [visited].  On [x + x * 3], four distinct instances, there are five
    calls, two of them on [x]. *)
Theorem postvisitor_visits_shared_node_twice :
  (∃ r n l,
     postvisitor (traced differentiate) 4 x_plus_x var_x (2, [])
     = Some (Ok (r, (n, l)))
     ∧ visit_order l = [0; 0; 1]
     ∧ length l = 3
     ∧ distinct_nodes x_plus_x = 2
     ∧ length l ≠ distinct_nodes x_plus_x)
  ∧ (∃ r n l,
       postvisitor (traced differentiate) 10 x_plus_x_times_3 var_x (4, [])
       = Some (Ok (r, (n, l)))
       ∧ visit_order l = [1; 0; 2; 0; 3]
       ∧ length l = 5
       ∧ distinct_nodes x_plus_x_times_3 = 4
       ∧ length l ≠ distinct_nodes x_plus_x_times_3).
Proof.
  split; do 3 eexists; (split; [vm_compute; reflexivity|]);
    split_and!; try reflexivity; vm_compute; lia.
Qed.

(** C2.  With enough fuel for the loop to finish, [postvisitor] either
    returns or passes on an exception raised by [fn].  When it returns,
    every call of [fn] got the keyword arguments of [postvisitor]
    unchanged and, for each operand of its node from left to right, the
    result of the most recent earlier call on that operand (so every
    operand had been visited before); and the value returned is the
    result of the last call on [expr]. *)
Theorem postvisitor_postorder {R K St} (fn : @visitor R K St) (kw : K)
    (expr : object) (s : St) (fuel : nat) :
  2 * size expr ≤ fuel →
  (∃ r s' l,
     postvisitor (traced fn) fuel expr kw (s, []) = Some (Ok (r, (s', l)))
     ∧ postvisitor fn fuel expr kw s = Some (Ok (r, s'))
     ∧ postorder_log kw l
     ∧ latest (oid expr) l = Some r)
  ∨ (∃ x e args s0,
       postvisitor fn fuel expr kw s = Some (Raise x)
       ∧ fn e args kw s0 = Raise x).
Proof.
  intros Hfuel.
  pose proof (traced_postvisitor fn kw fuel expr s []) as Hforget.
  unfold postvisitor in Hforget |- *.
  destruct (while_stack_terminates (traced fn) kw expr (s, []) fuel Hfuel)
    as [[x Hx]|(v & [s' l] & Hrun & [r Hr])].
  - right. rewrite Hx in *. simpl in Hforget.
    apply while_stack_raise in Hx as (e & args & st & Hraise).
    apply traced_raise in Hraise. rewrite <- Hforget. eauto 10.
  - left. rewrite Hrun in *. rewrite Hr in *. simpl in Hforget.
    exists r, s', l. split_and!; [done|done| |].
    + eapply traced_while_stack_inv; [| |exact Hrun]; done.
    + assert (memo_of_log v l) as Hmemo
        by (eapply traced_while_stack_inv; [| |exact Hrun]; done).
      by rewrite <- Hmemo.
Qed.

Lemma postvisitor_postorder_witness :
  2 * size x_plus_x_times_3 ≤ 10
  ∧ ((∃ r s' l,
        postvisitor (traced differentiate) 10 x_plus_x_times_3 var_x (4, [])
        = Some (Ok (r, (s', l)))
        ∧ postvisitor differentiate 10 x_plus_x_times_3 var_x 4
          = Some (Ok (r, s'))
        ∧ postorder_log var_x l
        ∧ latest (oid x_plus_x_times_3) l = Some r)
     ∨ (∃ x e args s0,
          postvisitor differentiate 10 x_plus_x_times_3 var_x 4
          = Some (Raise x)
          ∧ differentiate e args var_x s0 = Raise x)).
Proof.
  split; [vm_compute; lia|].
  apply (postvisitor_postorder differentiate var_x x_plus_x_times_3 4 10).
  vm_compute; lia.
Defined.

(** C7.  For every expression the loop of [postvisitor] stops: after at
    most [2 * size expr] iterations the stack is empty and the result for
    [expr] is returned, unless [fn] raised, in which case its exception
    has come out of [postvisitor]. *)
Theorem postvisitor_terminates {R K St} (fn : @visitor R K St) (kw : K)
    (expr : object) (s : St) (fuel : nat) :
  2 * size expr ≤ fuel →
  (∃ r s', postvisitor fn fuel expr kw s = Some (Ok (r, s')))
  ∨ (∃ x e args s0,
       postvisitor fn fuel expr kw s = Some (Raise x)
       ∧ fn e args kw s0 = Raise x).
Proof.
  intros Hfuel. unfold postvisitor.
  destruct (while_stack_terminates fn kw expr s fuel Hfuel)
    as [[x Hx]|(v & s' & Hrun & [r Hr])].
  - right. rewrite Hx.
    apply while_stack_raise in Hx as (e & args & s0 & Hraise). eauto 10.
  - left. rewrite Hrun, Hr. eauto.
Qed.

Lemma postvisitor_terminates_witness :
  2 * size x_plus_x ≤ 6
  ∧ ((∃ r s', postvisitor differentiate 6 x_plus_x var_x 2 = Some (Ok (r, s')))
     ∨ (∃ x e args s0,
          postvisitor differentiate 6 x_plus_x var_x 2 = Some (Raise x)
          ∧ differentiate e args var_x s0 = Raise x)).
Proof.
  split; [vm_compute; lia|].
  apply (postvisitor_terminates differentiate var_x x_plus_x 2 6).
  vm_compute; lia.
Defined.

(** ** Theorems about the differentiation rules *)

(** C3.  On a [Pow] node with operands [a] and [b], the rule returns
    [b * (a ^ (b - 1)) * o0]: [o0] is the result passed for the left
    operand, [a] and [b] are the node's own operands, and [1] is a new
    [Number].  Differentiating [x ** 3] with respect to ["x"] returns
    [3 * (x ^ (3 - 1)) * 1.0], which stands for [3 * x^2 * 1] whatever [x]
    is. *)
Theorem differentiate_Pow_rule (i n : nat) (a b o0 : object)
    (rest os : list object) (v : option scalar) (kw : kwargs) :
  differentiate (Obj i cPow (a :: b :: rest) v) (o0 :: os) kw n
  = Ok (node (n + 4) cMul
          (node (n + 3) cMul b
             (node (n + 2) cPow a
                (node (n + 1) cSub b (leaf n (PyInt 1)))))
          o0,
        n + 5)
  ∧ (∃ d,
       postvisitor differentiate 6 x_pow_3 var_x 3 = Some (Ok (d, 10))
       ∧ d = node 9 cMul
               (node 8 cMul num_3
                  (node 7 cPow sym_x
                     (node 6 cSub num_3 (leaf 5 (PyInt 1)))))
               (leaf 4 (PyFloat 1))
       ∧ ∀ x : Q, ∃ q, denote (λ _, x) d = Some q ∧ (q == 3 * x ^ 2 * 1)%Q).
Proof.
  split.
  - cbv [differentiate class_attr mro lookup_mro registry cls
         differentiate_Pow operands index].
    cbn. unfold node, leaf.
    replace (n + 1) with (S n) by lia.
    replace (n + 2) with (S (S n)) by lia.
    replace (n + 3) with (S (S (S n))) by lia.
    replace (n + 4) with (S (S (S (S n)))) by lia.
    replace (n + 5) with (S (S (S (S (S n))))) by lia.
    reflexivity.
  - eexists. split; [vm_compute; reflexivity|]. split; [reflexivity|].
    intros x. eexists. split; [reflexivity|]. reflexivity.
Qed.

(** C4.  The rule for [Number] returns a new [Number(0.0)] whatever the
    keyword arguments are.  The rule for [Symbol] compares the payload of
    the node with [var] by [==] and returns a new [Number(1.0)] when they
    are equal and a new [Number(0.0)] otherwise; the identity of the node
    plays no part.  The payloads [0.0] and [1.0] equal [0] and [1]. *)
Theorem differentiate_terminal_rules (i n : nat) (ops o : list object)
    (v : option scalar) (payload : scalar) (kw : kwargs) :
  differentiate (Obj i cNumber ops v) o kw n = Ok (leaf n (PyFloat 0), S n)
  ∧ (∀ var,
       kw_get "var" kw = Some var →
       differentiate (Obj i cSymbol ops (Some payload)) o kw n
       = Ok (leaf n (PyFloat (if py_eq (Builtin payload) var then 1 else 0)),
             S n))
  ∧ py_eq (py_float 0) (py_int 0) = true
  ∧ py_eq (py_float 1) (py_int 1) = true.
Proof.
  split_and!; [reflexivity| |reflexivity|reflexivity].
  intros var Hvar.
  cbv [differentiate class_attr mro lookup_mro registry cls
       differentiate_Symbol].
  rewrite Hvar.
  unfold mbind, M_bind, bind, lift, get_value. cbn [value].
  destruct (py_eq (Builtin payload) var); reflexivity.
Qed.

Lemma differentiate_terminal_rules_witness :
  kw_get "var" var_x = Some (py_str "x")
  ∧ differentiate (leaf 7 (PyInt 5)) [] var_x 8 = Ok (leaf 8 (PyFloat 0), 9)
  ∧ differentiate sym_x [] var_x 1 = Ok (leaf 1 (PyFloat 1), 2)
  ∧ differentiate sym_x [] [("var", py_str "y")] 1 = Ok (leaf 1 (PyFloat 0), 2)
  ∧ differentiate (Obj 5 cSymbol [] (Some (PyStr "x"))) [] var_x 6
    = Ok (leaf 6 (PyFloat 1), 7).
Proof.
  split; [reflexivity|]. split_and!.
  - apply (differentiate_terminal_rules 7 8 [] [] _ PyNone var_x).
  - apply (proj1 (proj2 (differentiate_terminal_rules
                           0 1 [] [] (Some (PyStr "x")) (PyStr "x") var_x))
             (py_str "x")).
    reflexivity.
  - apply (proj1 (proj2 (differentiate_terminal_rules
                           0 1 [] [] (Some (PyStr "x")) (PyStr "x")
                           [("var", py_str "y")]))
             (py_str "y")).
    reflexivity.
  - apply (proj1 (proj2 (differentiate_terminal_rules
                           5 6 [] [] (Some (PyStr "x")) (PyStr "x") var_x))
             (py_str "x")).
    reflexivity.
Defined.

(** C5.  On a [Mul] node with operands [a] and [b], the rule returns
    [o0 * b + o1 * a]: [o0] and [o1] are the results passed for the two
    operands, [a] and [b] are the node's own operands, and nothing is
    simplified.  Differentiating [x * x] with respect to ["x"] returns the
    sum [1.0 * x + 1.0 * x], not a product [2 * x]. *)
Theorem differentiate_Mul_rule (i n : nat) (a b o0 o1 : object)
    (rest os : list object) (v : option scalar) (kw : kwargs) :
  differentiate (Obj i cMul (a :: b :: rest) v) (o0 :: o1 :: os) kw n
  = Ok (node (n + 2) cAdd (node n cMul o0 b) (node (n + 1) cMul o1 a),
        n + 3)
  ∧ (∃ d,
       postvisitor differentiate 4 x_times_x var_x 2 = Some (Ok (d, 7))
       ∧ d = node 6 cAdd
               (node 4 cMul (leaf 3 (PyFloat 1)) sym_x)
               (node 5 cMul (leaf 3 (PyFloat 1)) sym_x)
       ∧ @str sample_runtime d = Ok "1.0 * x + 1.0 * x"
       ∧ cls d ≠ cMul).
Proof.
  split.
  - cbv [differentiate class_attr mro lookup_mro registry cls
         differentiate_Mul operands index].
    cbn. unfold node.
    replace (n + 1) with (S n) by lia.
    replace (n + 2) with (S (S n)) by lia.
    replace (n + 3) with (S (S (S n))) by lia.
    reflexivity.
  - eexists. split; [vm_compute; reflexivity|].
    split_and!; [reflexivity|vm_compute; reflexivity|done].
Qed.

(** C9.  On a node whose class has no registered rule, and none of whose
    base classes has one, [differentiate] raises [NotImplementedError]
    naming the class; it returns nothing.  In this module these are the
    instances of [Expression], [Operator] and [Terminal] themselves. *)
Theorem differentiate_unregistered (expr : object) (o : list object)
    (kw : kwargs) (n : nat) :
  cls expr ∉ [cNumber; cSymbol; cAdd; cSub; cMul; cDiv; cPow] →
  differentiate expr o kw n
  = Raise (NotImplementedError
             ("Cannot differentiate a " +:+ class_name (cls expr))).
Proof.
  intros Hcls. unfold differentiate.
  destruct (cls expr); try reflexivity;
    exfalso; apply Hcls; repeat constructor.
Qed.

Lemma differentiate_unregistered_witness :
  (cls plain_expression ∉ [cNumber; cSymbol; cAdd; cSub; cMul; cDiv; cPow])
  ∧ differentiate plain_expression [] var_x 1
    = Raise (NotImplementedError "Cannot differentiate a Expression")
  ∧ differentiate (Obj 1 cOperator [sym_x; sym_x] None)
      [leaf 2 (PyFloat 1); leaf 2 (PyFloat 1)] var_x 3
    = Raise (NotImplementedError "Cannot differentiate a Operator").
Proof.
  assert (∀ c, c = cExpression ∨ c = cOperator →
               c ∉ [cNumber; cSymbol; cAdd; cSub; cMul; cDiv; cPow]) as Hcls.
  { intros c Hc. rewrite list_elem_of_In. simpl.
    destruct Hc as [-> | ->]; intuition discriminate. }
  split_and!.
  - apply Hcls. by left.
  - apply (differentiate_unregistered plain_expression [] var_x 1).
    apply Hcls. by left.
  - apply (differentiate_unregistered (Obj 1 cOperator [sym_x; sym_x] None)
             [leaf 2 (PyFloat 1); leaf 2 (PyFloat 1)] var_x 3).
    apply Hcls. by right.
Defined.

(** ** Theorems about rendering *)


(** C6.  An instance of one of the five operator classes, with operands
    [a] and [b] that render as [sa] and [sb], renders as
    [sa symbol sb] with single spaces, where an operand is put in
    parentheses exactly when its precedence is greater than the
    operator's.  The precedences are 1 for [Pow], 2 for [Mul] and [Div],
    3 for [Add] and [Sub], and 0 for every terminal, so a terminal
    operand is never put in parentheses. *)
Theorem Operator_str_parenthesizes `{Runtime} (i : nat) (c : pyclass)
    (a b : object) (rest : list object) (v : option scalar)
    (pa pb : Z) (sa sb : string) :
  c ∈ [cAdd; cSub; cMul; cDiv; cPow] →
  precedence a = Ok pa →
  precedence b = Ok pb →
  str a = Ok sa →
  str b = Ok sb →
  let rank :=
    match c with cPow => 1 | cMul | cDiv => 2 | _ => 3 end%Z in
  let symbol :=
    match c with
    | cAdd => "+" | cSub => "-" | cMul => "*" | cDiv => "/" | _ => "^"
    end in
  let wrap (p : Z) (s : string) :=
    if bool_decide (p > rank)%Z then "(" +:+ s +:+ ")" else s in
  precedence (Obj i c (a :: b :: rest) v) = Ok rank
  ∧ str (Obj i c (a :: b :: rest) v)
    = Ok (wrap pa sa +:+ " " +:+ symbol +:+ " " +:+ wrap pb sb)
  ∧ (cls a ∈ [cTerminal; cNumber; cSymbol] → pa = 0%Z ∧ wrap pa sa = sa)
  ∧ (cls b ∈ [cTerminal; cNumber; cSymbol] → pb = 0%Z ∧ wrap pb sb = sb).
Proof.
  intros Hc Hpa Hpb Hsa Hsb rank symbol wrap.
  assert (∀ t p, cls t ∈ [cTerminal; cNumber; cSymbol] →
                 precedence t = Ok p → p = 0%Z) as Hterm.
  { intros t p Ht. unfold precedence.
    rewrite list_elem_of_In in Ht. simpl in Ht.
    destruct Ht as [<-|[<-|[<-|[]]]]; cbn; congruence. }
  assert (∀ p s, p = 0%Z → wrap p s = s) as Hwrap.
  { intros p s ->. unfold wrap, rank.
    rewrite bool_decide_eq_false_2; [done|]. destruct c; lia. }
  rewrite list_elem_of_In in Hc. simpl in Hc.
  split_and!.
  - destruct Hc as [<-|[<-|[<-|[<-|[<-|[]]]]]]; reflexivity.
  - destruct Hc as [<-|[<-|[<-|[<-|[<-|[]]]]]];
      cbn [str class_attr mro lookup_mro own__str__ cls operands];
      rewrite Hpa, Hsa, Hpb, Hsb; reflexivity.
  - intros Ha. pose proof (Hterm a pa Ha Hpa). auto.
  - intros Hb. pose proof (Hterm b pb Hb Hpb). auto.
Qed.

Lemma Operator_str_parenthesizes_witness :
  @str sample_runtime sum_times_c = Ok "(a + b) * c"
  ∧ @str sample_runtime a_plus_product = Ok "a + b * c".
Proof.
  split.
  - refine (proj1 (proj2 (@Operator_str_parenthesizes sample_runtime
              4 cMul (node 3 cAdd sym_a sym_b) sym_c [] None
              3%Z 0%Z "a + b" "c" _ _ _ _ _)));
      [rewrite list_elem_of_In; simpl; tauto|reflexivity..].
  - refine (proj1 (proj2 (@Operator_str_parenthesizes sample_runtime
              4 cAdd sym_a (node 3 cMul sym_b sym_c) [] None
              0%Z 2%Z "a" "b * c" _ _ _ _ _)));
      [rewrite list_elem_of_In; simpl; tauto|reflexivity..].
Defined.

(** ** Theorems about construction *)

(** C8.  [Number(v)] with [v] a number returns a new [Number] whose
    [value] is [v].  With any other [v] it raises [TypeError] and returns
    no object, so there is nothing whose later use could fail. *)
Theorem Number_checks_payload (v : pyval) (n : nat) :
  (∀ num, v = Builtin (PyNum num) → Number v n = Ok (leaf n num, S n))
  ∧ ((∀ num, v ≠ Builtin (PyNum num)) → Number v n = Raise (payload_error v)).
Proof.
  split.
  - intros num ->. reflexivity.
  - intros Hv. unfold Number.
    destruct v as [[num| |]|o]; try reflexivity.
    by destruct (Hv num).
Qed.

Lemma Number_checks_payload_witness :
  Number (py_int 5) 0 = Ok (leaf 0 (PyInt 5), 1)
  ∧ Number (py_str "five") 0
    = Raise (TypeError "Val input of type: strExpected val of type type.")
  ∧ Number (Instance sym_x) 1
    = Raise (TypeError "Val input of type: SymbolExpected val of type type.").
Proof.
  split_and!.
  - exact (proj1 (Number_checks_payload (py_int 5) 0) (PyInt 5) eq_refl).
  - apply (proj2 (Number_checks_payload (py_str "five") 0)).
    intros num; discriminate.
  - apply (proj2 (Number_checks_payload (Instance sym_x) 1)).
    intros num; discriminate.
Defined.

(** C10.  For an expression [e] and a value [v] that is neither a number
    nor an instance of the module's classes, each of [v + e], [v - e],
    [v * e], [v / e] and [v ** e] raises the [TypeError] of [Number(v)],
    and no operator node is built. *)
Theorem reflected_operators_reject (v : pyval) (e : object) (n : nat) :
  (∀ num, v ≠ Builtin (PyNum num)) →
  (∀ o, v ≠ Instance o) →
  binary_add v e n = Raise (payload_error v)
  ∧ binary_sub v e n = Raise (payload_error v)
  ∧ binary_mul v e n = Raise (payload_error v)
  ∧ binary_truediv v e n = Raise (payload_error v)
  ∧ binary_pow v e n = Raise (payload_error v).
Proof.
  intros Hnum Hobj.
  destruct v as [[num| |]|o];
    [by destruct (Hnum num)| | |by destruct (Hobj o)];
    split_and!; reflexivity.
Qed.

Lemma reflected_operators_reject_witness :
  binary_add (py_str "a") sym_x 1 = Raise (payload_error (py_str "a"))
  ∧ binary_sub (py_str "a") sym_x 1 = Raise (payload_error (py_str "a"))
  ∧ binary_mul (py_str "a") sym_x 1 = Raise (payload_error (py_str "a"))
  ∧ binary_truediv (py_str "a") sym_x 1 = Raise (payload_error (py_str "a"))
  ∧ binary_pow (py_str "a") sym_x 1 = Raise (payload_error (py_str "a")).
Proof.
  apply (reflected_operators_reject (py_str "a") sym_x 1);
    intros ?; discriminate.
Defined.

(** * Further properties *)

(** ** A rule for reasoning about [postvisitor] *)

Section Invariant.
Context {R K St : Type}.
Variable fn : @visitor R K St.
Variable kw : K.
Variable root : object.
Variable P : object → R → Prop.
Variable E : exn → Prop.
Hypothesis Hid : respects_identity root P.
Hypothesis Hfn : visitor_establishes fn kw root P E.

Local Abbreviation memo := (gmap nat R).

Lemma results_related (visited : memo) (os : list object) (args : list R) :
  memo_related root P visited →
  (∀ o, o ∈ os → o ∈ subterms root) →
  results visited os = Ok args →
  Forall2 P os args.
Proof.
  intros Hrel. revert args.
  induction os as [|o os IH]; intros args Hsub; simpl.
  - intros [= <-]. constructor.
  - destruct (visited !! oid o) as [r|] eqn:Hr; [|done].
    destruct (results visited os) as [rs|x] eqn:Hrs; [|done]. simpl.
    intros [= <-]. constructor.
    + apply Hrel; [apply Hsub; left|done].
    + apply IH; [|done]. intros p Hp. apply Hsub. by right.
Qed.

Lemma iteration_related (e : object) (stack : list object) (visited : memo)
    (s : St) :
  e ∈ subterms root →
  (∀ x, x ∈ stack → x ∈ subterms root) →
  memo_related root P visited →
  match iteration fn kw e stack visited s with
  | Ok ((stack', visited'), _) =>
      (∀ x, x ∈ stack' → x ∈ subterms root) ∧ memo_related root P visited'
  | Raise x => E x
  end.
Proof.
  intros He Hstack Hrel. unfold iteration.
  destruct (unvisited_children e visited) as [|c cs] eqn:Hun.
  - destruct (results_total visited (operands e)) as [args Hargs].
    { by apply unvisited_children_nil. }
    unfold mbind, M_bind, bind, lift. rewrite Hargs.
    assert (Forall2 P (operands e) args) as Hargs'.
    { apply (results_related visited); [done| |done].
      intros o Ho. by apply (subterms_operand root e). }
    pose proof (Hfn e args s He Hargs') as Hcall.
    destruct (fn e args kw s) as [[r s']|x]; [|done].
    simpl. split; [done|].
    intros x r' Hx. destruct (decide (oid e = oid x)) as [Heq|Hne].
    + rewrite Heq, lookup_insert_eq. intros [= <-].
      by apply (Hid e x r He Hx Heq).
    + rewrite lookup_insert_ne by done. by apply Hrel.
  - unfold mret, M_ret, ret. split; [|done].
    intros x. rewrite push_all_reverse, elem_of_app, elem_of_reverse.
    intros [Hx|Hx].
    + rewrite <- Hun in Hx. apply list_elem_of_filter in Hx as [_ Hx].
      by apply (subterms_operand root e).
    + apply elem_of_cons in Hx as [->|Hx]; [done|by apply Hstack].
Qed.

Lemma while_stack_related (fuel : nat) (stack : list object)
    (visited : memo) (s : St) :
  (∀ x, x ∈ stack → x ∈ subterms root) →
  memo_related root P visited →
  match while_stack fn kw fuel stack visited s with
  | Some (Ok (visited', _)) => memo_related root P visited'
  | Some (Raise x) => E x
  | None => True
  end.
Proof.
  revert stack visited s.
  induction fuel as [|fuel IH]; intros stack visited s Hstack Hrel;
    destruct stack as [|e stack]; simpl; try done.
  pose proof (iteration_related e stack visited s) as Hit.
  destruct (iteration fn kw e stack visited s) as [[[stk v] s']|x].
  - destruct Hit as [Hstk Hv]; [apply Hstack; left| |done|].
    { intros x Hx. apply Hstack. by right. }
    by apply IH.
  - apply Hit; [apply Hstack; left| |done].
    intros y Hy. apply Hstack. by right.
Qed.

(** With the fuel the loop needs, [postvisitor] returns a result related
    to [root], or raises an exception in [E]. *)
Lemma postvisitor_related (s : St) (fuel : nat) :
  2 * size root ≤ fuel →
  (∃ r s', postvisitor fn fuel root kw s = Some (Ok (r, s')) ∧ P root r)
  ∨ (∃ x, postvisitor fn fuel root kw s = Some (Raise x) ∧ E x).
Proof.
  intros Hfuel. unfold postvisitor.
  pose proof (while_stack_related fuel [root] ∅ s) as Hrel.
  destruct (while_stack_terminates fn kw root s fuel Hfuel)
    as [[x Hx]|(v & s' & Hrun & [r Hr])].
  - right. exists x. rewrite Hx in *. split; [done|]. apply Hrel; [|done].
    intros y Hy. apply list_elem_of_singleton in Hy as ->.
    apply subterms_self.
  - left. exists r, s'. rewrite Hrun in *. rewrite Hr. split; [done|].
    apply Hrel; [|done|apply subterms_self|done].
    intros y Hy. apply list_elem_of_singleton in Hy as ->.
    apply subterms_self.
Qed.
End Invariant.

Lemma identities_respected {R} (root : object) (P : object → R → Prop) :
  identities_agree root → respects_identity root P.
Proof.
  intros Hroot x y r Hx Hy Heq HP. by rewrite <- (Hroot x y Hx Hy Heq).
Qed.

(** X1.  The rule for [postvisitor].  On a DAG whose identities agree, if
    [fn], given for the operands of a node results that [P] relates to
    them, returns a result that [P] relates to the node or raises an
    exception in [E], then [postvisitor] returns a result that [P] relates
    to the root or raises an exception in [E]. *)
Theorem postvisitor_rule {R K St} (fn : @visitor R K St) (kw : K)
    (root : object) (P : object → R → Prop) (E : exn → Prop)
    (s : St) (fuel : nat) :
  identities_agree root →
  visitor_establishes fn kw root P E →
  2 * size root ≤ fuel →
  (∃ r s', postvisitor fn fuel root kw s = Some (Ok (r, s')) ∧ P root r)
  ∨ (∃ x, postvisitor fn fuel root kw s = Some (Raise x) ∧ E x).
Proof.
  intros Hroot Hfn Hfuel.
  apply postvisitor_related with (E := E); [|done|done].
  by apply identities_respected.
Qed.

Lemma postvisitor_rule_witness :
  identities_agree x_plus_x_times_3
  ∧ 2 * size x_plus_x_times_3 ≤ 10
  ∧ ((∃ r s',
        postvisitor (pure (λ e (args : list nat) (_ : unit), S (sum_list args)))
          10 x_plus_x_times_3 () () = Some (Ok (r, s'))
        ∧ r = size x_plus_x_times_3)
     ∨ (∃ x,
          postvisitor (pure (λ e (args : list nat) (_ : unit), S (sum_list args)))
            10 x_plus_x_times_3 () () = Some (Raise x)
          ∧ False)).
Proof.
  split; [exact x_plus_x_times_3_identities|].
  split; [vm_compute; lia|].
  apply (postvisitor_rule
           (pure (λ e (args : list nat) (_ : unit), S (sum_list args))) ()
           x_plus_x_times_3 (λ e r, r = size e) (λ _, False) () 10).
  - exact x_plus_x_times_3_identities.
  - intros e args s _ Hargs. simpl. rewrite (size_unfold e). f_equal.
    induction Hargs as [|o r os rs -> _ IH]; [done|]. simpl. by rewrite IH.
  - vm_compute; lia.
Defined.

(** ** Differentiating the expressions of the data model *)

Lemma well_formed_subterm (root x : object) :
  well_formed root = true → x ∈ subterms root → well_formed x = true.
Proof.
  remember (size root) as n eqn:Hn. revert root Hn.
  induction n as [n IH] using lt_wf_ind. intros root -> Hwf Hx.
  destruct root as [i c ops v]. simpl in Hx.
  apply elem_of_cons in Hx as [->|Hx]; [done|].
  apply list_elem_of_join in Hx as (l & Hxl & Hl).
  apply list_elem_of_fmap in Hl as (p & -> & Hp).
  apply (IH (size p)) with (root := p); [|done| |done].
  - apply (size_operand (Obj i c ops v) p). done.
  - destruct c; simpl in Hwf; try done;
      destruct ops as [|a [|b [|? ?]]]; try done;
      destruct v as [[num| |]|]; try done;
      try (by apply elem_of_nil in Hp);
      apply andb_true_iff in Hwf as [Ha Hb];
      apply elem_of_cons in Hp as [->|Hp]; try done;
      apply list_elem_of_singleton in Hp as ->; done.
Qed.

(** Every rule, on a node of the data model and results of the data
    model, returns a result of the data model; the rule for [Symbol]
    needs [var]. *)
Lemma differentiate_well_formed (e : object) (args : list object)
    (kw : kwargs) (n : nat) :
  well_formed e = true →
  Forall2 (λ _ d, well_formed d = true) (operands e) args →
  (cls e = cSymbol → is_Some (kw_get "var" kw)) →
  ∃ d n', differentiate e args kw n = Ok (d, n') ∧ well_formed d = true.
Proof.
  intros Hwf Hargs Hvar.
  destruct e as [i c ops v].
  destruct c; simpl in Hwf; try done;
    destruct ops as [|a [|b [|? ?]]]; try done;
    destruct v as [[num| |]|]; try done;
    simpl in Hargs;
    first
      [ (* Number *)
        by (eexists _, _; split; reflexivity)
      | (* Symbol *)
        destruct (Hvar eq_refl) as [var Hvar'];
        cbv [differentiate class_attr mro lookup_mro registry cls
             differentiate_Symbol];
        rewrite Hvar';
        unfold mbind, M_bind, bind, lift, get_value; cbn [value];
        match goal with
        | |- context [py_eq ?x ?y] => destruct (py_eq x y)
        end; by (eexists _, _; split; reflexivity)
      | (* the five operators *)
        apply andb_true_iff in Hwf as [Ha Hb];
        inversion Hargs as [|? o0 ? args' Ho0 Hargs']; subst;
        inversion Hargs' as [|? o1 ? args'' Ho1 Hargs'']; subst;
        inversion Hargs''; subst;
        eexists _, _; (split; [reflexivity|]);
        simpl; rewrite ?Ha, ?Hb, ?Ho0, ?Ho1; reflexivity ].
Qed.

(** X2.  Differentiating an expression of the data model with respect to
    a given [var] never raises, and the derivative is again an expression
    of the data model. *)
Theorem differentiate_closed (root : object) (kw : kwargs) (var : pyval)
    (n fuel : nat) :
  well_formed root = true →
  kw_get "var" kw = Some var →
  2 * size root ≤ fuel →
  ∃ d n',
    postvisitor differentiate fuel root kw n = Some (Ok (d, n'))
    ∧ well_formed d = true.
Proof.
  intros Hwf Hvar Hfuel.
  destruct (postvisitor_related differentiate kw root
              (λ _ d, well_formed d = true) (λ _, False)) with (s := n)
    (fuel := fuel) as [(d & n' & Hrun & Hd)|(x & _ & [])]; [| |done|by eauto].
  - intros x y r _ _ _ Hr. exact Hr.
  - intros e args s He Hargs.
    destruct (differentiate_well_formed e args kw s)
      as (d & n' & -> & Hd); [|done|by rewrite Hvar|done].
    by apply (well_formed_subterm root).
Qed.

Lemma differentiate_closed_witness :
  well_formed x_plus_x_times_3 = true
  ∧ kw_get "var" var_x = Some (py_str "x")
  ∧ 2 * size x_plus_x_times_3 ≤ 10
  ∧ ∃ d n',
      postvisitor differentiate 10 x_plus_x_times_3 var_x 4 = Some (Ok (d, n'))
      ∧ well_formed d = true.
Proof.
  split_and!; [reflexivity|reflexivity|vm_compute; lia|].
  apply (differentiate_closed x_plus_x_times_3 var_x (py_str "x") 4 10);
    [reflexivity|reflexivity|vm_compute; lia].
Defined.

Lemma has_symbol_unfold (e : object) :
  has_symbol e
  = bool_decide (cls e = cSymbol) || existsb has_symbol (operands e).
Proof. by destruct e. Qed.

Lemma has_symbol_subterm (root x : object) :
  has_symbol root = false → x ∈ subterms root → has_symbol x = false.
Proof.
  remember (size root) as n eqn:Hn. revert root Hn.
  induction n as [n IH] using lt_wf_ind. intros root -> Hno Hx.
  destruct root as [i c ops v]. simpl in Hx.
  apply elem_of_cons in Hx as [->|Hx]; [done|].
  apply list_elem_of_join in Hx as (l & Hxl & Hl).
  apply list_elem_of_fmap in Hl as (p & -> & Hp).
  apply (IH (size p)) with (root := p); [|done| |done].
  - apply (size_operand (Obj i c ops v) p). done.
  - rewrite has_symbol_unfold in Hno.
    apply orb_false_iff in Hno as [_ Hno]. simpl in Hno.
    destruct (has_symbol p) eqn:Hp'; [|done].
    assert (existsb has_symbol ops = true) as Hex; [|congruence].
    apply existsb_exists. exists p. split; [|done].
    by apply list_elem_of_In.
Qed.

(** X3.  Without the keyword argument [var], differentiating an
    expression of the data model raises the [TypeError] of the missing
    argument when a [Symbol] occurs in it, and returns a derivative when
    none does. *)
Theorem differentiate_without_var (root : object) (kw : kwargs)
    (n fuel : nat) :
  well_formed root = true →
  identities_agree root →
  kw_get "var" kw = None →
  2 * size root ≤ fuel →
  if has_symbol root
  then postvisitor differentiate fuel root kw n = Some (Raise missing_var)
  else ∃ d n',
         postvisitor differentiate fuel root kw n = Some (Ok (d, n'))
         ∧ well_formed d = true.
Proof.
  intros Hwf Hroot Hvar Hfuel.
  destruct (has_symbol root) eqn:Hsym.
  - destruct (postvisitor_related differentiate kw root
                (λ e d, well_formed d = true ∧ has_symbol e = false)
                (λ x, x = missing_var)) with (s := n) (fuel := fuel)
      as [(d & n' & _ & _ & Hno)|(x & Hrun & ->)];
      [by apply identities_respected| |done|congruence|done].
    intros e args s He Hargs.
    pose proof (well_formed_subterm root e Hwf He) as Hwfe.
    destruct (decide (cls e = cSymbol)) as [Hcls|Hcls].
    + destruct e as [i c ops v]. simpl in Hcls. subst c.
      cbv [differentiate class_attr mro lookup_mro registry cls
           differentiate_Symbol]. rewrite Hvar. reflexivity.
    + destruct (differentiate_well_formed e args kw s)
        as (d & n' & -> & Hd); [done| |done|].
      { eapply Forall2_impl; [exact Hargs|]. by intros ? ? [? _]. }
      split; [done|].
      rewrite has_symbol_unfold.
      rewrite bool_decide_eq_false_2 by done. simpl.
      destruct (existsb has_symbol (operands e)) eqn:Hex; [|done].
      apply existsb_exists in Hex as (o & Ho & Hos).
      apply list_elem_of_In in Ho.
      clear -Hargs Ho Hos. exfalso.
      induction Hargs as [|p r ps rs [_ Hp] _ IH]; [by apply elem_of_nil in Ho|].
      apply elem_of_cons in Ho as [->|Ho]; [congruence|by apply IH].
  - destruct (postvisitor_related differentiate kw root
                (λ _ d, well_formed d = true) (λ _, False)) with (s := n)
      (fuel := fuel) as [(d & n' & Hrun & Hd)|(x & _ & [])];
      [| |done|by eauto].
    + intros x y r _ _ _ Hr. exact Hr.
    + intros e args s He Hargs.
      destruct (differentiate_well_formed e args kw s)
        as (d & n' & -> & Hd); [| | |done].
      * by apply (well_formed_subterm root).
      * done.
      * intros Hcls. pose proof (has_symbol_subterm root e Hsym He) as Hno.
        rewrite has_symbol_unfold, Hcls in Hno.
        rewrite bool_decide_eq_true_2 in Hno by done. done.
Qed.

Lemma differentiate_without_var_witness :
  well_formed x_plus_x_times_3 = true
  ∧ identities_agree x_plus_x_times_3
  ∧ kw_get "var" [] = None
  ∧ 2 * size x_plus_x_times_3 ≤ 10
  ∧ postvisitor differentiate 10 x_plus_x_times_3 [] 4
    = Some (Raise missing_var).
Proof.
  split_and!;
    [reflexivity|exact x_plus_x_times_3_identities|reflexivity
    |vm_compute; lia|].
  apply (differentiate_without_var x_plus_x_times_3 [] 4 10);
    [reflexivity|exact x_plus_x_times_3_identities|reflexivity
    |vm_compute; lia].
Defined.

(** ** The order of the visits on a tree *)

Section Tree.
Context {R K St : Type}.
Variable fn : @visitor R K St.
Variable kw : K.

Local Abbreviation memo := (gmap nat R).
Local Abbreviation log := (list (call R K)).

Lemma ids_unfold (e : object) : ids e = oid e :: mjoin (ids <$> operands e).
Proof. by destruct e. Qed.

Lemma ids_length (e : object) : length (ids e) = size e.
Proof.
  remember (size e) as n eqn:Hn. revert e Hn.
  induction n as [n IH] using lt_wf_ind. intros e ->.
  assert (∀ o, o ∈ operands e → length (ids o) = size o) as Hops.
  { intros o Ho. apply (IH (size o)); [by apply size_operand|done]. }
  rewrite ids_unfold, size_unfold. cbn [length]. f_equal.
  revert Hops. generalize (operands e) as os.
  induction os as [|o os IHos]; intros Hops; [done|].
  rewrite fmap_cons. cbn [mjoin list_join sum_list_with].
  rewrite length_app, Hops by left.
  f_equal. apply IHos. intros p Hp. apply Hops. by right.
Qed.

Lemma remove_dups_NoDup (l : list nat) : NoDup l → remove_dups l = l.
Proof.
  induction 1 as [|i js Hi Hdup IH]; [done|].
  simpl. destruct (decide_rel elem_of i js); [done|]. by rewrite IH.
Qed.

Lemma ids_self (e : object) : oid e ∈ ids e.
Proof. rewrite ids_unfold. left. Qed.

Lemma unvisited_children_all (e : object) (visited : memo) :
  (∀ i, i ∈ ids e → visited !! i = None) →
  unvisited_children e visited = operands e.
Proof.
  intros Hnone. unfold unvisited_children.
  assert (∀ o, o ∈ operands e → visited !! oid o = None) as Hops.
  { intros o Ho. apply Hnone. rewrite ids_unfold. right.
    apply list_elem_of_join. exists (ids o). split; [apply ids_self|].
    apply list_elem_of_fmap. by exists o. }
  induction (operands e) as [|o os IH]; [done|].
  rewrite filter_cons, decide_True by (apply Hops; left).
  f_equal. apply IH. intros p Hp. apply Hops. by right.
Qed.

Lemma tree_list_finishes (stack : list object) :
  (∀ o, o ∈ stack → tree_node_finishes fn kw o) →
  NoDup (mjoin (ids <$> stack)) →
  ∀ rest visited s l,
    (∀ i, i ∈ mjoin (ids <$> stack) → visited !! i = None) →
    tree_finishes fn kw stack rest (2 * sum_list_with size stack)
      (mjoin (ids <$> reverse stack)) visited s l.
Proof.
  induction stack as [|o stack IH]; intros Hnodes Hdup rest visited s l Hnone.
  - exists 0. split; [simpl; lia|]. right. exists visited, s, l.
    split_and!; [|done|done].
    intros i. simpl. rewrite elem_of_nil. tauto.
  - rewrite fmap_cons in Hdup, Hnone. simpl in Hdup, Hnone.
    apply NoDup_app in Hdup as (Hdup_o & Hdisj & Hdup_rest).
    destruct (Hnodes o (list_elem_of_here _ _) Hdup_o (stack ++ rest)
                visited s l)
      as (k1 & Hk1 & [[x Hx]|(v1 & s1 & l1 & Hdom1 & Hlog1 & Hrun1)]).
    { intros i Hi. apply Hnone, elem_of_app. by left. }
    + exists k1. split; [simpl; lia|]. left. exists x. exact Hx.
    + destruct (IH (λ p Hp, Hnodes p (list_elem_of_further _ _ _ Hp))
                  Hdup_rest rest v1 s1 l1)
        as (k2 & Hk2 & [[x Hx]|(v2 & s2 & l2 & Hdom2 & Hlog2 & Hrun2)]).
      { intros i Hi. destruct (v1 !! i) eqn:Hv1; [|done].
        assert (is_Some (v1 !! i)) as Hsome by (by eexists).
        apply Hdom1 in Hsome as [[r' Hr]|Hin].
        - rewrite Hnone in Hr; [done|]. apply elem_of_app. by right.
        - simpl in Hin. rewrite app_nil_r in Hin.
          by destruct (Hdisj i Hin). }
      * exists (k1 + k2). split; [simpl; lia|]. left. exists x.
        intros fuel. simpl in Hrun1 |- *.
        rewrite <- Nat.add_assoc, Hrun1. apply Hx.
      * exists (k1 + k2). split; [simpl; lia|]. right. exists v2, s2, l2.
        split_and!.
        -- intros i. rewrite Hdom2, Hdom1. simpl.
           rewrite app_nil_r, elem_of_app. tauto.
        -- rewrite Hlog2, Hlog1, reverse_cons, fmap_app. simpl.
           assert (∀ (a b : list (list nat)), mjoin (a ++ b) = mjoin a ++ mjoin b)
             as Hjoin.
           { intros a b. induction a as [|? a IHa]; [done|].
             simpl. by rewrite IHa, app_assoc. }
           rewrite Hjoin. simpl. by rewrite app_nil_r, <- app_assoc.
        -- intros fuel. simpl in Hrun1 |- *.
           rewrite <- Nat.add_assoc, Hrun1. apply Hrun2.
Qed.

(** The visit of [e] once all its operands are in [visited]. *)
Lemma tree_visit_ready (e : object) (rest : list object) (visited : memo)
    (s : St) (l : log) :
  (∀ o, o ∈ operands e → is_Some (visited !! oid o)) →
  (∃ x, ∀ fuel,
      while_stack (traced fn) kw (1 + fuel) (e :: rest) visited (s, l)
      = Some (Raise x))
  ∨ (∃ r s' c,
       oid (c_node c) = oid e ∧
       ∀ fuel,
         while_stack (traced fn) kw (1 + fuel) (e :: rest) visited (s, l)
         = while_stack (traced fn) kw fuel rest (<[oid e := r]> visited)
             (s', c :: l)).
Proof.
  intros Hall.
  destruct (results_total visited (operands e) Hall) as [args Hargs].
  pose proof (proj2 (unvisited_children_nil e visited) Hall) as Hnil.
  destruct (fn e args kw s) as [[r s']|x] eqn:Hfn.
  - right. exists r, s', (Call e args kw r). split; [done|].
    intros fuel. simpl. unfold iteration. rewrite Hnil.
    unfold mbind, M_bind, bind, lift, traced. rewrite Hargs. simpl.
    rewrite Hfn. done.
  - left. exists x. intros fuel. simpl. unfold iteration. rewrite Hnil.
    unfold mbind, M_bind, bind, lift, traced. rewrite Hargs. simpl.
    rewrite Hfn. done.
Qed.

Lemma tree_node_finishes_all (e : object) : tree_node_finishes fn kw e.
Proof.
  remember (size e) as n eqn:Hn. revert e Hn.
  induction n as [n IH] using lt_wf_ind.
  intros e -> Hdup rest visited s l Hnone.
  pose proof (unvisited_children_all e visited Hnone) as Hun.
  rewrite ids_unfold in Hdup. apply NoDup_cons in Hdup as [Hself Hdup].
  destruct (decide (operands e = [])) as [Hleaf|Hops].
  - (* a leaf is visited at once *)
    destruct (tree_visit_ready e rest visited s l)
      as [[x Hx]|(r & s' & c & Hc & Hrun)].
    { rewrite Hleaf. intros o Ho. by apply elem_of_nil in Ho. }
    + exists 1. split; [rewrite (size_unfold e); lia|]. left. by exists x.
    + exists 1. split; [rewrite (size_unfold e); lia|]. right.
      exists (<[oid e := r]> visited), s', (c :: l). split_and!; [| |done].
      * intros i. simpl. rewrite app_nil_r, ids_unfold, Hleaf. simpl.
        rewrite list_elem_of_singleton.
        destruct (decide (oid e = i)) as [->|Hne].
        -- rewrite lookup_insert_eq. split; [by right|by eexists].
        -- rewrite lookup_insert_ne by done. split; [by left|].
           intros [?|?]; [done|congruence].
      * unfold call_ids. simpl. rewrite Hc, ids_unfold, Hleaf. done.
  - (* the node goes back under its operands, all unvisited *)
    assert (unvisited_children e visited ≠ []) as Hne by (by rewrite Hun).
    pose proof (iteration_push (traced fn) kw e rest visited (s, l)) as Hpush.
    rewrite Hun in Hpush.
    destruct (tree_list_finishes (reverse (operands e)))
      with (rest := e :: rest) (visited := visited) (s := s) (l := l)
      as (k1 & Hk1 & [[x Hx]|(v1 & s1 & l1 & Hdom1 & Hlog1 & Hrun1)]).
    { intros o Ho. apply (IH (size o)); [|done].
      apply size_operand. by apply elem_of_reverse. }
    { eapply NoDup_Permutation_proper; [|exact Hdup].
      apply join_Permutation, fmap_Permutation, reverse_Permutation. }
    { intros i Hi. apply Hnone. rewrite ids_unfold. right.
      apply list_elem_of_join in Hi as (li & Hi & Hli).
      apply list_elem_of_fmap in Hli as (o & -> & Ho).
      rewrite elem_of_reverse in Ho.
      apply list_elem_of_join. exists (ids o). split; [done|].
      apply list_elem_of_fmap. by exists o. }
    + rewrite sum_list_with_reverse in Hk1.
      exists (1 + k1). split; [rewrite (size_unfold e); lia|].
      left. exists x. intros fuel.
      change (1 + k1 + fuel) with (S (k1 + fuel)).
      cbn [app]. rewrite (Hpush _ Hops). apply Hx.
    + rewrite sum_list_with_reverse in Hk1.
      rewrite reverse_involutive in Hlog1.
      assert (∀ i, i ∈ mjoin (ids <$> reverse (operands e))
                   ↔ i ∈ mjoin (ids <$> operands e)) as Hperm.
      { intros i. rewrite !list_elem_of_join. split.
        - intros (li & Hi & Hli).
          apply list_elem_of_fmap in Hli as (o & -> & Ho).
          rewrite elem_of_reverse in Ho. exists (ids o). split; [done|].
          apply list_elem_of_fmap. by exists o.
        - intros (li & Hi & Hli).
          apply list_elem_of_fmap in Hli as (o & -> & Ho).
          exists (ids o). split; [done|].
          apply list_elem_of_fmap. exists o. split; [done|].
          by apply elem_of_reverse_2. }
      destruct (tree_visit_ready e rest v1 s1 l1)
        as [[x Hx]|(r & s' & c & Hc & Hrun2)].
      { intros o Ho. apply Hdom1. right. apply Hperm.
        apply list_elem_of_join. exists (ids o). split; [apply ids_self|].
        apply list_elem_of_fmap. by exists o. }
      * exists (1 + k1 + 1). split; [rewrite (size_unfold e); lia|].
        left. exists x. intros fuel.
        change (1 + k1 + 1 + fuel) with (S (k1 + 1 + fuel)).
        cbn [app]. rewrite (Hpush _ Hops), <- Nat.add_assoc, Hrun1. apply Hx.
      * exists (1 + k1 + 1). split; [rewrite (size_unfold e); lia|].
        right. exists (<[oid e := r]> v1), s', (c :: l1). split_and!.
        -- intros i. simpl. rewrite app_nil_r, (ids_unfold e), elem_of_cons.
           destruct (decide (oid e = i)) as [->|Hnei].
           ++ rewrite lookup_insert_eq. split; [by right; left|by eexists].
           ++ rewrite lookup_insert_ne by done. rewrite Hdom1, Hperm.
              split; [tauto|]. intros [?|[?|?]]; [tauto|congruence|tauto].
        -- unfold call_ids in *.
           rewrite fmap_cons, Hc, Hlog1, (ids_unfold e). done.
        -- intros fuel.
           change (1 + k1 + 1 + fuel) with (S (k1 + 1 + fuel)).
           cbn [app]. rewrite (Hpush _ Hops), <- Nat.add_assoc, Hrun1.
           apply Hrun2.
Qed.
End Tree.

(** X5.  On an expression in which no node is shared, [postvisitor] calls
    [fn] once on every node, the operands of a node before the node and
    the last operand first: the calls, oldest first, are the nodes in the
    reverse of the order in which a left-to-right descent from the root
    meets them. *)
Theorem postvisitor_tree_order {R K St} (fn : @visitor R K St) (kw : K)
    (root : object) (s : St) (fuel : nat) :
  NoDup (ids root) →
  2 * size root ≤ fuel →
  (∃ r s' l,
     postvisitor (traced fn) fuel root kw (s, []) = Some (Ok (r, (s', l)))
     ∧ visit_order l = reverse (ids root)
     ∧ length l = distinct_nodes root)
  ∨ (∃ x, postvisitor fn fuel root kw s = Some (Raise x)).
Proof.
  intros Hdup Hfuel.
  pose proof (traced_postvisitor fn kw fuel root s []) as Hforget.
  destruct (tree_node_finishes_all fn kw root Hdup [] ∅ s [])
    as (k & Hk & [[x Hx]|(v & s' & l & Hdom & Hlog & Hrun)]).
  { intros i _. apply lookup_empty. }
  - right. exists x. rewrite <- Hforget. unfold postvisitor.
    replace fuel with (k + (fuel - k)) by lia. cbn [app] in Hx.
    by rewrite Hx.
  - left. assert (is_Some (v !! oid root)) as [r Hr].
    { apply Hdom. right. simpl. rewrite app_nil_r. apply ids_self. }
    exists r, s', l. unfold postvisitor.
    replace fuel with (k + (fuel - k)) by lia. cbn [app] in Hrun.
    rewrite Hrun. replace (while_stack (traced fn) kw (fuel - k) [] v (s', l))
      with (Some (Ok (v, (s', l)))) by (by destruct (fuel - k)).
    rewrite Hr. split; [done|].
    unfold call_ids in Hlog. simpl in Hlog. rewrite app_nil_r in Hlog.
    split.
    + unfold visit_order. by rewrite Hlog.
    + unfold distinct_nodes.
      rewrite <- (length_fmap (λ c, oid (c_node c)) l), Hlog.
      by rewrite remove_dups_NoDup.
Qed.

Lemma postvisitor_tree_order_witness :
  NoDup (ids sum_times_c)
  ∧ 2 * size sum_times_c ≤ 10
  ∧ ((∃ r s' l,
        postvisitor (traced differentiate) 10 sum_times_c var_x (5, [])
        = Some (Ok (r, (s', l)))
        ∧ visit_order l = reverse (ids sum_times_c)
        ∧ length l = distinct_nodes sum_times_c)
     ∨ (∃ x, postvisitor differentiate 10 sum_times_c var_x 5
             = Some (Raise x))).
Proof.
  assert (NoDup (ids sum_times_c)) as Hdup.
  { apply (bool_decide_unpack _). vm_compute. exact I. }
  split; [exact Hdup|]. split; [vm_compute; lia|].
  apply (postvisitor_tree_order differentiate var_x sum_times_c 5 10 Hdup).
  vm_compute; lia.
Defined.

(** ** Rendering: errors and lost grouping *)


(** X10.  Rendering a node whose class inherits [Operator.__str__] raises
    [IndexError] when it has fewer than two operands, and
    [AttributeError] when its first operand is an instance of
    [Expression] itself or when the node is an instance of [Operator]
    itself: neither has a [precedence]. *)
Theorem str_errors `{Runtime} (i : nat) (c : pyclass) (ops : list object)
    (v : option scalar) :
  c ∈ [cOperator; cAdd; cSub; cMul; cDiv; cPow] →
  (length ops < 2 → str (Obj i c ops v) = Raise IndexError)
  ∧ (∀ a b rest, ops = a :: b :: rest → cls a = cExpression →
       str (Obj i c ops v) = Raise AttributeError)
  ∧ (2 ≤ length ops → c = cOperator →
       str (Obj i c ops v) = Raise AttributeError).
Proof.
  intros Hc. rewrite list_elem_of_In in Hc. simpl in Hc.
  assert (class_attr own__str__ c = Some Operator__str__) as Hstr.
  { destruct Hc as [<-|[<-|[<-|[<-|[<-|[<-|[]]]]]]]; reflexivity. }
  split_and!.
  - intros Hlen. destruct ops as [|a [|b rest]]; simpl in Hlen; try lia;
      cbn [str cls operands]; rewrite Hstr; reflexivity.
  - intros a b rest -> Ha. cbn [str cls operands]. rewrite Hstr.
    assert (precedence a = Raise AttributeError) as ->
      by (unfold precedence; by rewrite Ha).
    reflexivity.
  - intros Hlen ->. destruct ops as [|a [|b rest]]; simpl in Hlen; try lia.
    cbn [str cls operands class_attr mro lookup_mro own__str__].
    destruct (precedence a) as [pa|e] eqn:Hpa; [reflexivity|].
    unfold precedence in Hpa.
    destruct (class_attr own_precedence (cls a)); [done|].
    by injection Hpa as <-.
Qed.

Lemma str_errors_witness :
  (cAdd ∈ [cOperator; cAdd; cSub; cMul; cDiv; cPow])
  ∧ @str sample_runtime (Obj 1 cAdd [sym_x] None) = Raise IndexError
  ∧ @str sample_runtime (Obj 2 cAdd [plain_expression; sym_x] None)
    = Raise AttributeError
  ∧ @str sample_runtime (Obj 1 cOperator [sym_x; sym_x] None)
    = Raise AttributeError.
Proof.
  assert (∀ c, c = cAdd ∨ c = cOperator →
               c ∈ [cOperator; cAdd; cSub; cMul; cDiv; cPow]) as Hc.
  { intros c [-> | ->]; rewrite list_elem_of_In; simpl; tauto. }
  split; [apply Hc; by left|]. split_and!.
  - apply (proj1 (@str_errors sample_runtime 1 cAdd [sym_x] None
                    (Hc cAdd (or_introl eq_refl)))).
    simpl; lia.
  - apply (proj1 (proj2 (@str_errors sample_runtime 2 cAdd
                           [plain_expression; sym_x] None
                           (Hc cAdd (or_introl eq_refl))))
             plain_expression sym_x []); reflexivity.
  - apply (proj2 (proj2 (@str_errors sample_runtime 1 cOperator
                           [sym_x; sym_x] None
                           (Hc cOperator (or_intror eq_refl)))));
      [simpl; lia|reflexivity].
Defined.

Lemma append_assoc (a b c : string) : (a +:+ b) +:+ c = a +:+ b +:+ c.
Proof.
  induction a as [|ch a IH]; [done|].
  change (String ch ((a +:+ b) +:+ c) = String ch (a +:+ b +:+ c)).
  by f_equal.
Qed.

(** The text of a node of one of the five operator classes, from the
    texts and precedences of its operands. *)
Lemma str_operator_node `{Runtime} (i : nat) (c : pyclass) (a b : object)
    (pa pb ps : Z) (sa sb sym : string) :
  c ∈ [cAdd; cSub; cMul; cDiv; cPow] →
  own_precedence c = Some ps →
  own_exp_symbol c = Some sym →
  precedence a = Ok pa → precedence b = Ok pb →
  str a = Ok sa → str b = Ok sb →
  str (node i c a b)
  = Ok (parenthesize ps pa sa +:+ " " +:+ sym +:+ " "
        +:+ parenthesize ps pb sb).
Proof.
  intros Hc Hps Hsym Hpa Hpb Hsa Hsb.
  rewrite list_elem_of_In in Hc. simpl in Hc.
  destruct Hc as [<-|[<-|[<-|[<-|[<-|[]]]]]];
    injection Hps as <-; injection Hsym as <-;
    unfold node; cbn [str class_attr mro lookup_mro own__str__ cls operands];
    rewrite Hpa, Hsa, Hpb, Hsb; reflexivity.
Qed.

(** X11.  Nesting an operator inside the same operator never adds
    parentheses, on either side: [a - (b - c)] and [(a - b) - c] have the
    same text, [a - b - c]. *)
Theorem str_same_operator_nesting `{Runtime} (c : pyclass)
    (x y z : object) (i j i' j' : nat) (px py pz : Z) (sx sy sz : string) :
  c ∈ [cAdd; cSub; cMul; cDiv; cPow] →
  precedence x = Ok px → precedence y = Ok py → precedence z = Ok pz →
  str x = Ok sx → str y = Ok sy → str z = Ok sz →
  str (node i c x (node j c y z)) = str (node i' c (node j' c x y) z)
  ∧ ∃ ps sym,
      own_precedence c = Some ps ∧ own_exp_symbol c = Some sym
      ∧ str (node i c x (node j c y z))
        = Ok (parenthesize ps px sx +:+ " " +:+ sym +:+ " "
              +:+ parenthesize ps py sy +:+ " " +:+ sym +:+ " "
              +:+ parenthesize ps pz sz).
Proof.
  intros Hc Hpx Hpy Hpz Hsx Hsy Hsz.
  assert (∃ ps sym, own_precedence c = Some ps ∧ own_exp_symbol c = Some sym)
    as (ps & sym & Hps & Hsym).
  { rewrite list_elem_of_In in Hc. simpl in Hc.
    destruct Hc as [<-|[<-|[<-|[<-|[<-|[]]]]]]; by eexists _, _. }
  assert (∀ k a b, precedence (node k c a b) = Ok ps) as Hnode.
  { intros k a b. unfold precedence, node. simpl.
    rewrite list_elem_of_In in Hc. simpl in Hc.
    destruct Hc as [<-|[<-|[<-|[<-|[<-|[]]]]]];
      injection Hps as <-; reflexivity. }
  assert (∀ s, parenthesize ps ps s = s) as Hsame.
  { intros s. unfold parenthesize. rewrite bool_decide_eq_false_2; [done|lia]. }
  pose proof (str_operator_node j c y z py pz ps sy sz sym
                Hc Hps Hsym Hpy Hpz Hsy Hsz) as Hyz.
  pose proof (str_operator_node j' c x y px py ps sx sy sym
                Hc Hps Hsym Hpx Hpy Hsx Hsy) as Hxy.
  pose proof (str_operator_node i c x (node j c y z) px ps ps sx _ sym
                Hc Hps Hsym Hpx (Hnode _ _ _) Hsx Hyz) as Hright.
  pose proof (str_operator_node i' c (node j' c x y) z ps pz ps _ sz sym
                Hc Hps Hsym (Hnode _ _ _) Hpz Hxy Hsz) as Hleft.
  rewrite Hsame in Hright, Hleft.
  rewrite !append_assoc in Hleft.
  split; [by rewrite Hright, Hleft|].
  exists ps, sym. split_and!; [done|done|exact Hright].
Qed.

Lemma str_same_operator_nesting_witness :
  (cSub ∈ [cAdd; cSub; cMul; cDiv; cPow])
  ∧ @str sample_runtime (node 4 cSub sym_a (node 3 cSub sym_b sym_c))
    = @str sample_runtime (node 4 cSub (node 3 cSub sym_a sym_b) sym_c)
  ∧ @str sample_runtime (node 4 cSub sym_a (node 3 cSub sym_b sym_c))
    = Ok "a - b - c".
Proof.
  assert (cSub ∈ [cAdd; cSub; cMul; cDiv; cPow]) as Hc.
  { rewrite list_elem_of_In. simpl. tauto. }
  split; [exact Hc|].
  split.
  - apply (proj1 (@str_same_operator_nesting sample_runtime cSub
                    sym_a sym_b sym_c 4 3 4 3 0%Z 0%Z 0%Z "a" "b" "c"
                    Hc eq_refl eq_refl eq_refl eq_refl eq_refl eq_refl)).
  - reflexivity.
Defined.

(** ** Operator syntax stays in the data model *)

(** X12.  Applied to an expression of the data model and a number or another
    such expression, every forward operator returns a node of its class
    over the left operand and the right one, in this order, a raw number
    on the right having become a new [Number]; with a number on the left
    of an expression, the node holds the new [Number] first.  The node is
    an expression of the data model, and nothing is raised. *)
Theorem operators_build_expressions (self : object)
    (other : number + object) (num : number) (n : nat) :
  well_formed self = true →
  (∀ e, other = inr e → well_formed e = true) →
  Forall (λ mc,
            ∃ r rhs n',
              mc.1 self other n = Ok (r, n')
              ∧ cls r = mc.2
              ∧ operands r = [self; rhs]
              ∧ match other with
                | inl k => rhs = leaf n k
                | inr e => rhs = e
                end
              ∧ well_formed r = true)
         forward_operators
  ∧ Forall (λ mc,
              ∃ r n',
                mc.1 (Builtin (PyNum num)) self n = Ok (r, n')
                ∧ cls r = mc.2
                ∧ operands r = [leaf n num; self]
                ∧ well_formed r = true)
           left_operators.
Proof.
  intros Hself Hother. split.
  - destruct other as [k|e].
    + repeat constructor; eexists _, _, _;
        (split_and!; [reflexivity..|]); simpl; by rewrite Hself.
    + pose proof (Hother e eq_refl) as He.
      repeat constructor; eexists _, _, _;
        (split_and!; [reflexivity..|]); simpl; by rewrite Hself, He.
  - repeat constructor; eexists _, _;
      (split_and!; [reflexivity..|]); simpl; by rewrite Hself.
Qed.

Lemma operators_build_expressions_witness :
  well_formed sym_x = true
  ∧ Forall (λ mc,
              ∃ r rhs n',
                mc.1 sym_x (inl (PyInt 3)) 1 = Ok (r, n')
                ∧ cls r = mc.2
                ∧ operands r = [sym_x; rhs]
                ∧ rhs = leaf 1 (PyInt 3)
                ∧ well_formed r = true)
           forward_operators
  ∧ Forall (λ mc,
              ∃ r n',
                mc.1 (Builtin (PyNum (PyInt 3))) sym_x 1 = Ok (r, n')
                ∧ cls r = mc.2
                ∧ operands r = [leaf 1 (PyInt 3); sym_x]
                ∧ well_formed r = true)
           left_operators.
Proof.
  split; [reflexivity|].
  apply (operators_build_expressions sym_x (inl (PyInt 3)) (PyInt 3) 1);
    [reflexivity|intros e He; discriminate He].
Defined.

(** ** The rules compute derivatives *)

Lemma derivable_pt_lim_ext_value (f : R → R) (x l l' : R) :
  derivable_pt_lim f x l → l = l' → derivable_pt_lim f x l'.
Proof. by intros H <-. Qed.

Section Soundness.
Variable env : string → R.
Variable x : string.
Variable t : R.

Lemma Int_part_IZR (k : Z) : Int_part (IZR k) = k.
Proof. symmetry. apply Int_part_spec. lra. Qed.

Lemma regular_well_formed (e : object) :
  regular (at_var env x t) e → well_formed e = true.
Proof.
  remember (size e) as n eqn:Hn. revert e Hn.
  induction n as [n IH] using lt_wf_ind. intros e -> Hreg.
  destruct e as [i c ops v].
  destruct c; simpl in Hreg; try done;
    destruct ops as [|a [|b [|? ?]]]; try done;
    destruct v as [[num| |]|]; try done.
  1-3: destruct Hreg as [Ha Hb]; simpl;
    rewrite (IH (size a)) by (simpl; lia || done);
    rewrite (IH (size b)) by (simpl; lia || done); done.
  - destruct Hreg as (Ha & Hb & _). simpl.
    rewrite (IH (size a)) by (simpl; lia || done).
    rewrite (IH (size b)) by (simpl; lia || done). done.
  - destruct Hreg as (Ha & k & j & -> & _). simpl.
    rewrite (IH (size a)) by (simpl; lia || done). done.
Qed.
Lemma differentiate_derivative (e : object) (args : list object)
    (kw : kwargs) (n : nat) :
  well_formed e = true →
  Forall2 (derivative_of env x t) (operands e) args →
  kw_get "var" kw = Some (py_str x) →
  ∃ d n', differentiate e args kw n = Ok (d, n')
          ∧ derivative_of env x t e d.
Proof.
  intros Hwf Hargs Hvar.
  destruct (differentiate_well_formed e args kw n) as (d & n' & Hrun & Hd);
    [done| |by rewrite Hvar|].
  { eapply Forall2_impl; [exact Hargs|]. by intros ? ? [? _]. }
  exists d, n'. split; [done|]. split; [done|].
  intros Hreg. revert Hrun.
  destruct e as [i c ops v].
  destruct c; simpl in Hwf; try done;
    destruct ops as [|a [|b [|? ?]]]; try done;
    destruct v as [[num| |]|]; try done; simpl in Hreg; try done.
  - (* Number *)
    intros [= <- <-]. simpl. rewrite RMicromega.Q2R_0.
    apply (derivable_pt_lim_const (number_R num)).
  - (* Symbol *)
    cbv [differentiate class_attr mro lookup_mro registry cls
         differentiate_Symbol].
    rewrite Hvar. unfold mbind, M_bind, bind, lift, get_value. cbn [value].
    change (py_eq (Builtin (PyStr s)) (py_str x)) with (String.eqb s x).
    simpl. unfold at_var.
    destruct (String.eqb s x) eqn:Heq; intros [= <- <-]; simpl.
    + rewrite RMicromega.Q2R_1. apply derivable_pt_lim_id.
    + rewrite RMicromega.Q2R_0. apply (derivable_pt_lim_const (env s)).
  - (* Add *)
    inversion Hargs as [|? o0 ? args' [_ Ho0] Hargs']; subst.
    inversion Hargs' as [|? o1 ? args'' [_ Ho1] Hargs'']; subst.
    inversion Hargs''; subst. destruct Hreg as [Ha Hb].
    intros [= <- <-]. simpl.
    apply (derivable_pt_lim_plus _ _ _ _ _ (Ho0 Ha) (Ho1 Hb)).
  - (* Sub *)
    inversion Hargs as [|? o0 ? args' [_ Ho0] Hargs']; subst.
    inversion Hargs' as [|? o1 ? args'' [_ Ho1] Hargs'']; subst.
    inversion Hargs''; subst. destruct Hreg as [Ha Hb].
    intros [= <- <-]. simpl.
    apply (derivable_pt_lim_minus _ _ _ _ _ (Ho0 Ha) (Ho1 Hb)).
  - (* Mul *)
    inversion Hargs as [|? o0 ? args' [_ Ho0] Hargs']; subst.
    inversion Hargs' as [|? o1 ? args'' [_ Ho1] Hargs'']; subst.
    inversion Hargs''; subst. destruct Hreg as [Ha Hb].
    intros [= <- <-]. simpl.
    pose proof (derivable_pt_lim_mult _ _ _ _ _ (Ho0 Ha) (Ho1 Hb)) as Hmul.
    eapply derivable_pt_lim_ext_value; [exact Hmul|]. cbv beta. ring.
  - (* Div *)
    inversion Hargs as [|? o0 ? args' [_ Ho0] Hargs']; subst.
    inversion Hargs' as [|? o1 ? args'' [_ Ho1] Hargs'']; subst.
    inversion Hargs''; subst. destruct Hreg as (Ha & Hb & Hnz).
    intros [= <- <-]. simpl. rewrite Int_part_IZR.
    pose proof (derivable_pt_lim_div _ _ _ _ _ (Ho0 Ha) (Ho1 Hb) Hnz) as Hdiv.
    eapply derivable_pt_lim_ext_value; [exact Hdiv|].
    unfold Rsqr. cbv beta. simpl. field. exact Hnz.
  - (* Pow *)
    inversion Hargs as [|? o0 ? args' [_ Ho0] Hargs']; subst.
    inversion Hargs' as [|? o1 ? args'' [_ Ho1] Hargs'']; subst.
    inversion Hargs''; subst. destruct Hreg as (Ha & k & j & -> & Hk).
    intros [= <- <-]. simpl.
    replace (IZR k - 1)%R with (IZR (k - 1)) by (rewrite minus_IZR; lra).
    rewrite !Int_part_IZR.
    pose proof (derivable_pt_lim_comp _ (λ y, y ^ Z.to_nat k)%R _ _ _
                  (Ho0 Ha) (derivable_pt_lim_pow _ (Z.to_nat k))) as Hpow.
    eapply derivable_pt_lim_ext_value; [exact Hpow|]. cbv beta.
    rewrite INR_IZR_INZ, Z2Nat.id by lia.
    replace (Nat.pred (Z.to_nat k)) with (Z.to_nat (k - 1)) by lia.
    ring.
Qed.
End Soundness.

(** X7.  Differentiating with respect to the symbol [x] an expression that is
    regular at a point returns an expression whose value at the point is
    the derivative in [x] of the value of the expression: the rules are
    those of the calculus. *)
Theorem differentiate_sound (root : object) (env : string → R)
    (x : string) (t : R) (kw : kwargs) (n fuel : nat) :
  identities_agree root →
  kw_get "var" kw = Some (py_str x) →
  regular (at_var env x t) root →
  2 * size root ≤ fuel →
  ∃ d n',
    postvisitor differentiate fuel root kw n = Some (Ok (d, n'))
    ∧ derivable_pt_lim (λ u, real (at_var env x u) root) t
        (real (at_var env x t) d).
Proof.
  intros Hroot Hvar Hreg Hfuel.
  pose proof (regular_well_formed env x t root Hreg) as Hwf.
  destruct (postvisitor_related differentiate kw root
              (derivative_of env x t) (λ _, False)) with (s := n)
    (fuel := fuel) as [(d & n' & Hrun & _ & Hd)|(y & _ & [])];
    [by apply identities_respected| |done|by eauto].
  intros e args s He Hargs.
  destruct (differentiate_derivative env x t e args kw s)
    as (d & n' & -> & Hd); [|done|done|done].
  by apply (well_formed_subterm root).
Qed.

Lemma x_pow_3_identities : identities_agree x_pow_3.
Proof.
  intros a b Ha Hb. rewrite list_elem_of_In in Ha, Hb. simpl in Ha, Hb.
  intuition (subst; first [reflexivity|discriminate]).
Qed.

Lemma differentiate_sound_witness :
  identities_agree x_pow_3
  ∧ kw_get "var" var_x = Some (py_str "x")
  ∧ regular (at_var (λ _, 0%R) "x" 2%R) x_pow_3
  ∧ 2 * size x_pow_3 ≤ 6
  ∧ ∃ d n',
      postvisitor differentiate 6 x_pow_3 var_x 3 = Some (Ok (d, n'))
      ∧ derivable_pt_lim (λ u, real (at_var (λ _, 0%R) "x" u) x_pow_3) 2%R
          (real (at_var (λ _, 0%R) "x" 2%R) d).
Proof.
  assert (regular (at_var (λ _, 0%R) "x" 2%R) x_pow_3) as Hreg.
  { simpl. split; [done|]. exists 3%Z, 1. split; [reflexivity|lia]. }
  split_and!;
    [exact x_pow_3_identities|reflexivity|exact Hreg|vm_compute; lia|].
  apply (differentiate_sound x_pow_3 (λ _, 0%R) "x" 2%R var_x 3 6);
    [exact x_pow_3_identities|reflexivity|exact Hreg|vm_compute; lia].
Defined.

(** ** Every node is visited *)

Section Coverage.
Context {R K St : Type}.
Variable fn : @visitor R K St.
Variable kw : K.
Variable root : object.

Local Abbreviation memo := (gmap nat R).
Local Abbreviation log := (list (call R K)).

Lemma traced_iteration_nodes (e : object) (stack : list object)
    (visited : memo) (s : St) (l : log) stack' visited' s' l' :
  e ∈ subterms root →
  (∀ x, x ∈ stack → x ∈ subterms root) →
  (∀ c, c ∈ l → c_node c ∈ subterms root) →
  iteration (traced fn) kw e stack visited (s, l)
  = Ok ((stack', visited'), (s', l')) →
  (∀ x, x ∈ stack' → x ∈ subterms root)
  ∧ (∀ c, c ∈ l' → c_node c ∈ subterms root).
Proof.
  intros He Hstack Hlog. unfold iteration.
  destruct (unvisited_children e visited) as [|c cs] eqn:Hun.
  - unfold mbind, M_bind, bind, lift, traced.
    destruct (results visited (operands e)) as [args|x]; [|done]. simpl.
    destruct (fn e args kw s) as [[r s1]|x]; [|done].
    intros [= <- <- <- <-]. split; [done|].
    intros c Hc. apply elem_of_cons in Hc as [->|Hc]; [done|by apply Hlog].
  - rewrite <- Hun. unfold mret, M_ret, ret.
    intros [= <- <- <- <-]. split; [|done].
    intros x. rewrite push_all_reverse, elem_of_app, elem_of_reverse.
    intros [Hx|Hx].
    + apply list_elem_of_filter in Hx as [_ Hx].
      by apply (subterms_operand root e).
    + apply elem_of_cons in Hx as [->|Hx]; [done|by apply Hstack].
Qed.

Lemma traced_while_stack_nodes (fuel : nat) (stack : list object)
    (visited : memo) (s : St) (l : log) visited' s' l' :
  (∀ x, x ∈ stack → x ∈ subterms root) →
  (∀ c, c ∈ l → c_node c ∈ subterms root) →
  while_stack (traced fn) kw fuel stack visited (s, l)
  = Some (Ok (visited', (s', l'))) →
  ∀ c, c ∈ l' → c_node c ∈ subterms root.
Proof.
  revert stack visited s l.
  induction fuel as [|fuel IH]; intros stack visited s l Hstack Hlog;
    destruct stack as [|e stack]; simpl; try done;
    try (by intros [= <- <- <-]).
  destruct (iteration (traced fn) kw e stack visited (s, l))
    as [[[stk v] [s1 l1]]|x] eqn:Hit; [|done].
  destruct (traced_iteration_nodes _ _ _ _ _ _ _ _ _
              (Hstack e (list_elem_of_here _ _))
              (λ y Hy, Hstack y (list_elem_of_further _ _ _ Hy)) Hlog Hit)
    as [Hstk Hl1].
  by apply IH.
Qed.

Lemma latest_elem (i : nat) (l : log) (r : R) :
  latest i l = Some r → ∃ c, c ∈ l ∧ oid (c_node c) = i.
Proof.
  induction l as [|c l IH]; [done|]. simpl.
  destruct (decide (oid (c_node c) = i)) as [Heq|Hne].
  - intros _. exists c. split; [left|done].
  - intros Hl. destruct (IH Hl) as (c' & Hc' & Hi).
    exists c'. split; [by right|done].
Qed.

Lemma postorder_log_operand (l : log) (c : call R K) (o : object) :
  postorder_log kw l → c ∈ l → o ∈ operands (c_node c) →
  ∃ c', c' ∈ l ∧ oid (c_node c') = oid o.
Proof.
  induction l as [|c0 l IH]; intros Hlog Hc Ho;
    [by apply elem_of_nil in Hc|].
  destruct Hlog as (_ & Hargs & Hlog).
  apply elem_of_cons in Hc as [->|Hc].
  - assert (∃ r, latest (oid o) l = Some r) as [r Hr].
    { clear -Hargs Ho. induction Hargs as [|p a ps rs Hp _ IHa];
        [by apply elem_of_nil in Ho|].
      apply elem_of_cons in Ho as [->|Ho]; [by eexists|by apply IHa]. }
    apply latest_elem in Hr as (c' & Hc' & Hi). exists c'.
    split; [by right|done].
  - destruct (IH Hlog Hc Ho) as (c' & Hc' & Hi). exists c'.
    split; [by right|done].
Qed.

Lemma covered_below (l : log) (x : object) :
  identities_agree root →
  postorder_log kw l →
  (∀ c, c ∈ l → c_node c ∈ subterms root) →
  (∃ c, c ∈ l ∧ c_node c = x) →
  ∀ y, y ∈ subterms x → ∃ c, c ∈ l ∧ c_node c = y.
Proof.
  intros Hroot Hlog Hnodes.
  remember (size x) as n eqn:Hn. revert x Hn.
  induction n as [n IH] using lt_wf_ind. intros x -> Hx y Hy.
  destruct x as [i k ops v]. simpl in Hy.
  apply elem_of_cons in Hy as [->|Hy]; [done|].
  apply list_elem_of_join in Hy as (ly & Hy & Hly).
  apply list_elem_of_fmap in Hly as (o & -> & Ho).
  apply (IH (size o)) with (x := o); [|done| |done].
  { apply (size_operand (Obj i k ops v) o). done. }
  destruct Hx as (c & Hc & Hcx).
  destruct (postorder_log_operand l c o Hlog Hc) as (c' & Hc' & Hi).
  { by rewrite Hcx. }
  exists c'. split; [done|].
  apply Hroot; [by apply Hnodes| |done].
  apply (subterms_operand root (Obj i k ops v)); [|done].
  rewrite <- Hcx. by apply Hnodes.
Qed.
End Coverage.

(** X6.  On a DAG whose identities agree, when [postvisitor] returns,
    [fn] has been called on every node of the DAG. *)
Theorem postvisitor_visits_every_node {R K St} (fn : @visitor R K St)
    (kw : K) (root : object) (s : St) (fuel : nat) :
  identities_agree root →
  2 * size root ≤ fuel →
  (∃ r s' l,
     postvisitor (traced fn) fuel root kw (s, []) = Some (Ok (r, (s', l)))
     ∧ ∀ y, y ∈ subterms root → ∃ c, c ∈ l ∧ c_node c = y)
  ∨ (∃ x, postvisitor fn fuel root kw s = Some (Raise x)).
Proof.
  intros Hroot Hfuel.
  pose proof (traced_postvisitor fn kw fuel root s []) as Hforget.
  unfold postvisitor in Hforget |- *.
  destruct (while_stack_terminates (traced fn) kw root (s, []) fuel Hfuel)
    as [[x Hx]|(v & [s' l] & Hrun & [r Hr])].
  - right. exists x. rewrite Hx in Hforget. by rewrite <- Hforget.
  - left. rewrite Hrun, Hr. exists r, s', l. split; [done|].
    assert (∀ c, c ∈ l → c_node c ∈ subterms root) as Hnodes.
    { eapply traced_while_stack_nodes; [| |exact Hrun].
      - intros x Hx. apply list_elem_of_singleton in Hx as ->.
        apply subterms_self.
      - intros c Hc. by apply elem_of_nil in Hc. }
    destruct (traced_while_stack_inv fn kw fuel [root] ∅ (s) [] v s' l)
      as [Hmemo Hlog]; [done|done|exact Hrun|].
    apply (covered_below kw root l root Hroot Hlog Hnodes).
    rewrite Hmemo in Hr. apply latest_elem in Hr as (c & Hc & Hi).
    exists c. split; [done|].
    apply Hroot; [by apply Hnodes|apply subterms_self|done].
Qed.

Lemma postvisitor_visits_every_node_witness :
  identities_agree x_plus_x_times_3
  ∧ 2 * size x_plus_x_times_3 ≤ 10
  ∧ ((∃ r s' l,
        postvisitor (traced differentiate) 10 x_plus_x_times_3 var_x (4, [])
        = Some (Ok (r, (s', l)))
        ∧ ∀ y, y ∈ subterms x_plus_x_times_3 → ∃ c, c ∈ l ∧ c_node c = y)
     ∨ (∃ x, postvisitor differentiate 10 x_plus_x_times_3 var_x 4
             = Some (Raise x))).
Proof.
  split; [exact x_plus_x_times_3_identities|].
  split; [vm_compute; lia|].
  apply (postvisitor_visits_every_node differentiate var_x
           x_plus_x_times_3 4 10 x_plus_x_times_3_identities).
  vm_compute; lia.
Defined.

(** ** The rules index their arguments unchecked *)

(** X8.  A rule for a binary operator that is passed fewer than two results,
    and the rule for [Pow] on a node with fewer than two operands or with
    no result, raise [IndexError]. *)
Theorem differentiate_arity_errors (i n : nat) (c : pyclass)
    (ops o : list object) (v : option scalar) (kw : kwargs) :
  (c ∈ [cAdd; cSub; cMul; cDiv] → length o < 2 →
   differentiate (Obj i c ops v) o kw n = Raise IndexError)
  ∧ (c = cPow → length ops < 2 ∨ o = [] →
     differentiate (Obj i c ops v) o kw n = Raise IndexError).
Proof.
  split.
  - intros Hc Hlen. rewrite list_elem_of_In in Hc. simpl in Hc.
    destruct o as [|o0 [|o1 o]]; simpl in Hlen; try lia;
      destruct Hc as [<-|[<-|[<-|[<-|[]]]]]; try reflexivity;
      destruct ops as [|a [|b ops]]; reflexivity.
  - intros -> [Hlen| ->].
    + destruct ops as [|a [|b ops]]; simpl in Hlen; try lia; reflexivity.
    + destruct ops as [|a [|b ops]]; reflexivity.
Qed.

Lemma differentiate_arity_errors_witness :
  (cAdd ∈ [cAdd; cSub; cMul; cDiv])
  ∧ differentiate (Obj 1 cAdd [sym_x] None) [leaf 2 (PyFloat 1)] var_x 3
    = Raise IndexError
  ∧ differentiate (Obj 1 cPow [sym_x] None) [leaf 2 (PyFloat 1)] var_x 3
    = Raise IndexError.
Proof.
  assert (cAdd ∈ [cAdd; cSub; cMul; cDiv]) as Hc.
  { rewrite list_elem_of_In. simpl. tauto. }
  split; [exact Hc|]. split.
  - apply (proj1 (differentiate_arity_errors 1 3 cAdd [sym_x]
                    [leaf 2 (PyFloat 1)] None var_x) Hc).
    simpl; lia.
  - apply (proj2 (differentiate_arity_errors 1 3 cPow [sym_x]
                    [leaf 2 (PyFloat 1)] None var_x) eq_refl).
    left. simpl; lia.
Defined.

(** ** How often a shared node can be visited *)

Section Bound.
Context {R K St : Type}.
Variable fn : @visitor R K St.
Variable kw : K.

Local Abbreviation memo := (gmap nat R).
Local Abbreviation log := (list (call R K)).

Lemma ids_filter_submseteq (P : object → Prop) `{∀ o, Decision (P o)}
    (os : list object) :
  mjoin (ids <$> filter P os) ⊆+ mjoin (ids <$> os).
Proof.
  induction os as [|o os IH]; [done|].
  rewrite filter_cons. destruct (decide (P o)).
  - rewrite !fmap_cons. simpl. by apply submseteq_skips_l.
  - rewrite fmap_cons. simpl. by apply submseteq_inserts_l.
Qed.

Lemma dag_list_finishes (stack : list object) :
  (∀ o, o ∈ stack → ∀ rest visited s l,
        dag_finishes fn kw [o] rest (2 * size o) visited s l) →
  ∀ rest visited s l,
    dag_finishes fn kw stack rest (2 * sum_list_with size stack)
      visited s l.
Proof.
  induction stack as [|o stack IH]; intros Hnodes rest visited s l.
  - exists 0. split; [simpl; lia|]. right. exists visited, s, l, [].
    split_and!; [done| |done|done|done].
    intros o Ho. by apply elem_of_nil in Ho.
  - destruct (Hnodes o (list_elem_of_here _ _) (stack ++ rest) visited s l)
      as (k1 & Hk1 & [[x Hx]
                     |(v1 & s1 & l1 & new1 & Hmono1 & Ho & Hlog1 & Hnew1 & Hrun1)]).
    + exists k1. split; [simpl; lia|]. left. exists x. exact Hx.
    + destruct (IH (λ p Hp, Hnodes p (list_elem_of_further _ _ _ Hp))
                  rest v1 s1 l1)
        as (k2 & Hk2 & [[x Hx]
                       |(v2 & s2 & l2 & new2 & Hmono2 & Hall & Hlog2 & Hnew2 & Hrun2)]).
      * exists (k1 + k2). split; [simpl; lia|]. left. exists x.
        intros fuel. simpl in Hrun1 |- *.
        rewrite <- Nat.add_assoc, Hrun1. apply Hx.
      * exists (k1 + k2). split; [simpl; lia|]. right.
        exists v2, s2, l2, (new2 ++ new1). split_and!.
        -- intros i Hi. by apply Hmono2, Hmono1.
        -- intros p Hp. apply elem_of_cons in Hp as [->|Hp].
           ++ apply Hmono2, Ho. left.
           ++ by apply Hall.
        -- by rewrite Hlog2, Hlog1, app_assoc.
        -- rewrite fmap_cons. simpl. simpl in Hnew1.
           rewrite app_nil_r in Hnew1.
           etrans; [apply Permutation_submseteq, Permutation_app_comm|].
           by apply submseteq_app.
        -- intros fuel. simpl in Hrun1 |- *.
           rewrite <- Nat.add_assoc, Hrun1. apply Hrun2.
Qed.

Lemma dag_node_finishes (e : object) :
  ∀ rest visited s l, dag_finishes fn kw [e] rest (2 * size e) visited s l.
Proof.
  remember (size e) as n eqn:Hn. revert e Hn.
  induction n as [n IH] using lt_wf_ind. intros e -> rest visited s l.
  destruct (decide (unvisited_children e visited = [])) as [Hnil|Hne].
  - destruct (tree_visit_ready fn kw e rest visited s l)
      as [[x Hx]|(r & s' & c & Hc & Hrun)].
    { by apply unvisited_children_nil. }
    + exists 1. split; [rewrite (size_unfold e); lia|]. left. by exists x.
    + exists 1. split; [rewrite (size_unfold e); lia|]. right.
      exists (<[oid e := r]> visited), s', (c :: l), [oid e]. split_and!.
      * intros i Hi. destruct (decide (oid e = i)) as [->|Hnei].
        -- rewrite lookup_insert_eq. by eexists.
        -- by rewrite lookup_insert_ne.
      * intros o Ho. apply list_elem_of_singleton in Ho as ->.
        rewrite lookup_insert_eq. by eexists.
      * unfold call_ids. by rewrite fmap_cons, Hc.
      * simpl. rewrite app_nil_r, (ids_unfold e).
        apply submseteq_skip, submseteq_nil_l.
      * done.
  - pose proof (sum_size_unvisited e visited) as Hsize.
    pose proof (iteration_push (traced fn) kw e rest visited (s, l)) as Hpush.
    pose proof (ids_filter_submseteq (λ o, visited !! oid o = None)
                  (operands e)) as Hsub.
    fold (unvisited_children e visited) in Hsub.
    set (children := unvisited_children e visited) in *.
    assert (∀ o, o ∈ children → o ∈ operands e ∧ visited !! oid o = None)
      as Hchildren.
    { intros o Ho. apply list_elem_of_filter in Ho as [? ?]. done. }
    destruct (dag_list_finishes (reverse children)) with (rest := e :: rest)
      (visited := visited) (s := s) (l := l)
      as (k1 & Hk1 & [[x Hx]
                     |(v1 & s1 & l1 & new1 & Hmono & Hall & Hlog1 & Hnew1 & Hrun1)]).
    { intros o Ho. apply (IH (size o)); [|done].
      apply size_operand, Hchildren. by apply elem_of_reverse. }
    + rewrite sum_list_with_reverse in Hk1.
      exists (1 + k1). split; [lia|]. left. exists x. intros fuel.
      change (1 + k1 + fuel) with (S (k1 + fuel)).
      cbn [app]. rewrite (Hpush _ Hne). apply Hx.
    + rewrite sum_list_with_reverse in Hk1.
      destruct (tree_visit_ready fn kw e rest v1 s1 l1)
        as [[x Hx]|(r & s' & c & Hc & Hrun2)].
      { intros o Ho. destruct (visited !! oid o) eqn:Hl.
        - apply Hmono. by eexists.
        - apply Hall, elem_of_reverse_2, list_elem_of_filter. done. }
      * exists (1 + k1 + 1). split; [lia|]. left. exists x. intros fuel.
        change (1 + k1 + 1 + fuel) with (S (k1 + 1 + fuel)).
        cbn [app]. rewrite (Hpush _ Hne), <- Nat.add_assoc, Hrun1. apply Hx.
      * exists (1 + k1 + 1). split; [lia|]. right.
        exists (<[oid e := r]> v1), s', (c :: l1), (oid e :: new1).
        split_and!.
        -- intros i Hi. destruct (decide (oid e = i)) as [->|Hnei].
           ++ rewrite lookup_insert_eq. by eexists.
           ++ rewrite lookup_insert_ne by done. by apply Hmono.
        -- intros o Ho. apply list_elem_of_singleton in Ho as ->.
           rewrite lookup_insert_eq. by eexists.
        -- unfold call_ids in *. by rewrite fmap_cons, Hc, Hlog1.
        -- simpl. rewrite app_nil_r, (ids_unfold e).
           apply submseteq_skip. etrans; [exact Hnew1|].
           etrans; [|exact Hsub].
           apply Permutation_submseteq, join_Permutation, fmap_Permutation,
             reverse_Permutation.
        -- intros fuel.
           change (1 + k1 + 1 + fuel) with (S (k1 + 1 + fuel)).
           cbn [app]. rewrite (Hpush _ Hne), <- Nat.add_assoc, Hrun1.
           apply Hrun2.
Qed.
End Bound.

(** X13.  On every DAG, shared nodes or not, the nodes of the calls of
    [fn] form a part of the nodes of the tree the DAG unfolds to, counted
    with repetition: no node is visited more often than there are paths
    from the root to it, and there are at most [size root] calls. *)
Theorem postvisitor_calls_bounded {R K St} (fn : @visitor R K St) (kw : K)
    (root : object) (s : St) (fuel : nat) :
  2 * size root ≤ fuel →
  (∃ r s' l,
     postvisitor (traced fn) fuel root kw (s, []) = Some (Ok (r, (s', l)))
     ∧ call_ids l ⊆+ ids root
     ∧ length l ≤ size root)
  ∨ (∃ x, postvisitor fn fuel root kw s = Some (Raise x)).
Proof.
  intros Hfuel.
  pose proof (traced_postvisitor fn kw fuel root s []) as Hforget.
  destruct (dag_node_finishes fn kw root [] ∅ s [])
    as (k & Hk & [[x Hx]
                 |(v & s' & l & new & _ & Hin & Hlog & Hnew & Hrun)]).
  - right. exists x. rewrite <- Hforget. unfold postvisitor.
    replace fuel with (k + (fuel - k)) by lia. cbn [app] in Hx.
    by rewrite Hx.
  - left. destruct (Hin root (list_elem_of_here _ _)) as [r Hr].
    exists r, s', l. unfold postvisitor.
    replace fuel with (k + (fuel - k)) by lia. cbn [app] in Hrun.
    rewrite Hrun. replace (while_stack (traced fn) kw (fuel - k) [] v (s', l))
      with (Some (Ok (v, (s', l)))) by (by destruct (fuel - k)).
    rewrite Hr. split; [done|].
    simpl in Hlog, Hnew. rewrite app_nil_r in Hlog, Hnew.
    assert (call_ids l ⊆+ ids root) as Hsub by (by rewrite Hlog).
    split; [done|].
    apply submseteq_length in Hsub.
    unfold call_ids in Hsub. by rewrite length_fmap, ids_length in Hsub.
Qed.

Lemma postvisitor_calls_bounded_witness :
  2 * size x_plus_x_times_3 ≤ 10
  ∧ ((∃ r s' l,
        postvisitor (traced differentiate) 10 x_plus_x_times_3 var_x (4, [])
        = Some (Ok (r, (s', l)))
        ∧ call_ids l ⊆+ ids x_plus_x_times_3
        ∧ length l ≤ size x_plus_x_times_3)
     ∨ (∃ x, postvisitor differentiate 10 x_plus_x_times_3 var_x 4
             = Some (Raise x))).
Proof.
  split; [vm_compute; lia|].
  apply (postvisitor_calls_bounded differentiate var_x x_plus_x_times_3 4 10).
  vm_compute; lia.
Defined.
